(** * binlog / NanoLogCpp: format-string classifier and argument sizing

    A shallow embedding of [src/binlog/NanoLogCpp.cpp] and of the
    [ParamType] enumeration of [binlog/NanoLogCpp.h].

    - [getParamInfo] scans a printf-style format string through the
      index [pos]; the embedding keeps the index, the [Params] vector and
      a log of every subscript [fmt[pos]] the code evaluates, in a small
      state-and-fault monad.
    - the four [getArgSize] overloads are embedded with the two reference
      parameters ([previousPrecision], [stringBytes]) passed explicitly. *)

From Stdlib Require Import ZArith List Ascii String Bool Lia.
Import ListNotations.

Local Open Scope Z_scope.

(* ================================================================== *)
(** ** The [ParamType] enumeration *)

(** [enum ParamType : int32_t]: six named negative values, and every
    non-negative value is a string with that precision.  The code casts
    integers into the type and compares its values with [<=], [>=] and
    [==], so the embedding keeps the underlying integer. *)
Definition ParamType := Z.

Definition INVALID : ParamType := -6.
Definition DYNAMIC_WIDTH : ParamType := -5.
Definition DYNAMIC_PRECISION : ParamType := -4.
Definition NON_STRING : ParamType := -3.
Definition STRING_WITH_DYNAMIC_PRECISION : ParamType := -2.
Definition STRING_WITH_NO_PRECISION : ParamType := -1.
Definition STRING : ParamType := 0.

(** The cast [ParamType(precision)] of an [int]. *)
Definition ParamType_of_int (precision : Z) : ParamType := precision.

(** Largest value of the C++ [int] used for [precision] (32 bits, the
    width of the enumeration's underlying type). *)
Definition INT_MAX : Z := 2 ^ 31 - 1.

(* ================================================================== *)
(** ** Character classes *)

Definition chr (c : ascii) : Z := Z.of_nat (nat_of_ascii c).

Definition isTerminal (c : ascii) : bool :=
  (c =? "d")%char || (c =? "i")%char
  || (c =? "u")%char || (c =? "o")%char
  || (c =? "x")%char || (c =? "X")%char
  || (c =? "f")%char || (c =? "F")%char
  || (c =? "e")%char || (c =? "E")%char
  || (c =? "g")%char || (c =? "G")%char
  || (c =? "a")%char || (c =? "A")%char
  || (c =? "c")%char || (c =? "p")%char
  || (c =? "%")%char || (c =? "s")%char
  || (c =? "n")%char.

Definition isFlag (c : ascii) : bool :=
  (c =? "-")%char || (c =? "+")%char || (c =? " ")%char
  || (c =? "#")%char || (c =? "0")%char.

Definition isLength (c : ascii) : bool :=
  (c =? "h")%char || (c =? "l")%char || (c =? "j")%char
  || (c =? "z")%char || (c =? "t")%char || (c =? "L")%char.

(** [c >= '0' && c <= '9']; a character outside ASCII fails one of the
    two tests whether [char] is signed or not. *)
Definition isDigit (c : ascii) : bool :=
  (chr "0" <=? chr c) && (chr c <=? chr "9").

(* ================================================================== *)
(** ** The scanner's state and monad *)

(** What can go wrong in a run of the scanner: a subscript outside the
    character array, an overflow of the signed [int] that accumulates
    the precision (undefined behaviour in C++), or a loop of the
    embedding that exhausts its iteration budget. *)
Inductive fault : Type :=
| OutOfBounds
| SignedOverflow
| OutOfFuel.

(** [pos] and [Params] are the locals of [getParamInfo]; [reads] logs,
    oldest first, the index of every evaluation of [fmt[pos]]. *)
Record scan : Type := mkScan {
  pos : Z;
  Params : list ParamType;
  reads : list Z
}.

Inductive res (A : Type) : Type :=
| Ret (a : A) (s : scan)
| Stuck (f : fault) (s : scan).
Arguments Ret {A} a s.
Arguments Stuck {A} f s.

Definition M (A : Type) : Type := scan -> res A.

Definition ret {A} (a : A) : M A := fun s => Ret a s.

Definition bind {A B} (m : M A) (k : A -> M B) : M B :=
  fun s => match m s with
           | Ret a s' => k a s'
           | Stuck f s' => Stuck f s'
           end.

Definition raise {A} (f : fault) : M A := fun s => Stuck f s.

Declare Scope scan_scope.
Delimit Scope scan_scope with scan.
Notation "x <- m ;; k" := (bind m (fun x => k))
  (at level 100, m at next level, right associativity) : scan_scope.
Notation "m ;; k" := (bind m (fun _ => k))
  (at level 100, right associativity) : scan_scope.
Local Open Scope scan_scope.

(** [++pos] *)
Definition advance : M unit :=
  fun s => Ret tt (mkScan (pos s + 1) (Params s) (reads s)).

(** [Params.push_back(p)] *)
Definition push_back (p : ParamType) : M unit :=
  fun s => Ret tt (mkScan (pos s) (Params s ++ [p]) (reads s)).

(** The current value of [pos]. *)
Definition get_pos : M Z := fun s => Ret (pos s) s.

(** [fmt[pos]]: the subscript is logged, then looked up in the
    character array [fmt]. *)
Definition fetch (fmt : list ascii) : M ascii :=
  fun s =>
    let s' := mkScan (pos s) (Params s) (reads s ++ [pos s]) in
    if pos s <? 0 then Stuck OutOfBounds s'
    else match nth_error fmt (Z.to_nat (pos s)) with
         | Some c => Ret c s'
         | None => Stuck OutOfBounds s'
         end.

(** An [int] result: a value above [INT_MAX] is an overflow. *)
Definition int_result (v : Z) : M Z :=
  if v <=? INT_MAX then ret v else raise SignedOverflow.

(* ================================================================== *)
(** ** [getParamInfo] *)

Section Classifier.

Variable fmt : list ascii.

(** [while (p(fmt[pos])) ++pos;] *)
Fixpoint consume (p : ascii -> bool) (fuel : nat) : M unit :=
  match fuel with
  | O => raise OutOfFuel
  | S fuel' =>
      c <- fetch fmt ;;
      if p c then advance ;; consume p fuel' else ret tt
  end.

(** [while (isDigit(fmt[pos])) { precision = 10 * precision +
    (fmt[pos] - '0'); ++pos; }] *)
Fixpoint consumePrecision (fuel : nat) (precision : Z) : M Z :=
  match fuel with
  | O => raise OutOfFuel
  | S fuel' =>
      c <- fetch fmt ;;
      if isDigit c then
        d <- fetch fmt ;;
        t <- int_result (10 * precision) ;;
        precision' <- int_result (t + (chr d - chr "0")) ;;
        advance ;;
        consumePrecision fuel' precision'
      else ret precision
  end.

(** [// Consume width] *)
Definition consumeWidth (fuel : nat) : M unit :=
  c <- fetch fmt ;;
  if (c =? "*")%char
  then push_back DYNAMIC_WIDTH ;; advance
  else consume isDigit fuel.

(** [// Consume precision]: the block returns the values it leaves in
    the locals ([hasDynamicPrecision], [precision]), which enter it as
    [false] and [-1]. *)
Definition consumePrecisionField (fuel : nat) : M (bool * Z) :=
  c <- fetch fmt ;;
  if (c =? ".")%char
  then
    advance ;;            (* consume '.' *)
    c <- fetch fmt ;;
    if (c =? "*")%char
    then push_back DYNAMIC_PRECISION ;; advance ;; ret (true, -1)
    else precision <- consumePrecision fuel 0 ;; ret (false, precision)
  else ret (false, -1).

(** [// Consume terminal] to the closing [++pos]: the three tests on
    the conversion character and what each pushes. *)
Definition consumeTerminal (hasDynamicPrecision : bool) (precision : Z)
  : M unit :=
  c <- fetch fmt ;;
  (if negb (isTerminal c) then push_back INVALID else ret tt) ;;
  (* Fail on %n specifiers *)
  c <- fetch fmt ;;
  (if (c =? "n")%char then push_back INVALID else ret tt) ;;
  c <- fetch fmt ;;
  (if negb (c =? "s")%char then push_back NON_STRING
   else if hasDynamicPrecision
        then push_back STRING_WITH_DYNAMIC_PRECISION
   else if precision =? -1 then push_back STRING_WITH_NO_PRECISION
   else push_back (ParamType_of_int precision)) ;;
  advance.

(** The body of the innermost [else]: one specifier, scanned from the
    character after its ['%']. *)
Definition specifier (fuel : nat) : M unit :=
  consume isFlag fuel ;;          (* Consume flags *)
  consumeWidth fuel ;;
  hp <- consumePrecisionField fuel ;;
  consume isLength fuel ;;        (* consume length *)
  consumeTerminal (fst hp) (snd hp).

(** One iteration of [while (pos < N - 1)], entered with the loop
    condition true. *)
Definition iteration (fuel : nat) : M unit :=
  c <- fetch fmt ;;
  if negb (c =? "%")%char then advance
  else
    advance ;;
    (* Two %'s in a row => Comment *)
    c <- fetch fmt ;;
    if (c =? "%")%char then advance
    else specifier fuel.

(** [while (pos < N - 1) { ... }]: [loops] bounds the iterations of
    this loop, [fuel] those of each inner loop. *)
Fixpoint scanLoop (N : Z) (fuel : nat) (loops : nat) : M unit :=
  match loops with
  | O => raise OutOfFuel
  | S loops' =>
      p <- get_pos ;;
      if p <? N - 1
      then iteration fuel ;; scanLoop N fuel loops'
      else ret tt
  end.

End Classifier.

(** The state at entry: [Params] empty, [pos = 0], nothing read. *)
Definition scan0 : scan := mkScan 0 [] [].

(** A run of [getParamInfo(fmt, N)] on the character array [fmt]: every
    iteration of every loop advances [pos] past a character of the
    array, so the length of the array (plus one for the last test)
    is a sufficient budget for the inner loops, and [N] (plus one) for
    the outer one. *)
Definition run_getParamInfo (fmt : list ascii) (N : Z) : res unit :=
  scanLoop fmt N (S (List.length fmt)) (S (Z.to_nat N)) scan0.

(** [return Params;] *)
Definition getParamInfo (fmt : list ascii) (N : Z)
  : fault + list ParamType :=
  match run_getParamInfo fmt N with
  | Ret _ s => inr (Params s)
  | Stuck f _ => inl f
  end.

(** The subscripts evaluated by the run, whatever its outcome. *)
Definition final {A} (r : res A) : scan :=
  match r with Ret _ s => s | Stuck _ s => s end.

Definition readsOf (fmt : list ascii) (N : Z) : list Z :=
  reads (final (run_getParamInfo fmt N)).

(** A C string literal in memory: its characters and the terminating
    NUL; [strlen] counts the characters before the terminator. *)
Definition NUL : ascii := "000"%char.

Definition c_str (s : string) : list ascii :=
  list_ascii_of_string s ++ [NUL].

Definition strlen (s : string) : Z := Z.of_nat (String.length s).


(* ================================================================== *)
(** ** [getArgSize] *)

(** The sizes the target fixes: [sizeof(void* )], [sizeof(wchar_t)] and
    the number of bits of [size_t]. *)
Class Platform : Type := {
  sizeof_void_ptr : Z;
  sizeof_wchar_t : Z;
  size_t_bits : Z
}.

(** [sizeof(uint32_t)], the width of the length that precedes a string. *)
Definition sizeof_uint32_t : Z := 4.

Definition to_uint32_t (v : Z) : Z := v mod 2 ^ 32.
Definition to_uint64_t (v : Z) : Z := v mod 2 ^ 64.
Definition to_size_t {platform : Platform} (v : Z) : Z := v mod 2 ^ size_t_bits.

(** The two reference parameters every overload receives. *)
Record scratch : Type := mkScratch {
  previousPrecision : Z;     (* uint64_t& *)
  stringBytes : Z            (* size_t& *)
}.

(** What the template [getArgSize<T>] needs of its type argument:
    [sizeof(T)] and the conversion [as_uint64_t]. *)
Class Scalar (T : Type) : Type := {
  sizeof : Z;
  as_uint64_t : T -> Z
}.
Arguments sizeof T {_}.

(** An argument of a C++ integer type of [bytes] bytes. *)
Record Integer (bytes : Z) : Type := mkInteger { value : Z }.
Arguments mkInteger {bytes} value.
Arguments value {bytes} i.

(** Modelled from the spec: [as_uint64_t] is declared outside the source
    files at hand.  The spec has the scalar's runtime value widened to a
    64-bit magnitude before it is stored in the running precision: the
    conversion of the integer to [uint64_t]. *)
#[global] Instance Integer_Scalar (bytes : Z) : Scalar (Integer bytes) := {
  sizeof := bytes;
  as_uint64_t := fun i => to_uint64_t (value i)
}.

(** [int], four bytes. *)
Definition c_int : Type := Integer 4.

(** [strlen] and [wcslen] of an argument: a narrow string is given by
    its characters, a wide one by its code units (both without the
    terminator). *)
Definition wcslen (wstr : list Z) : Z := Z.of_nat (List.length wstr).

Section ArgSize.

Context {platform : Platform}.

(** [template<typename T> getArgSize(fmtType, previousPrecision,
    stringSize, T arg)] *)
Definition getArgSize {T : Type} `{Scalar T}
    (fmtType : ParamType) (st : scratch) (arg : T) : Z * scratch :=
  let st :=
    if fmtType =? DYNAMIC_PRECISION
    then mkScratch (as_uint64_t arg) (stringBytes st)
    else st in
  (sizeof T, st).

(** [getArgSize(const ParamType, previousPrecision, stringSize,
    const void* )]: the address is the argument. *)
Definition getArgSize_void (fmtType : ParamType) (st : scratch)
    (arg : Z) : Z * scratch :=
  (sizeof_void_ptr, st).

(** The truncation shared, line for line, by the two string overloads:
    from the measured length to the value left in [stringBytes]. *)
Definition truncate (fmtType : ParamType) (st : scratch) (measured : Z)
  : Z :=
  let fmtLength := to_uint32_t fmtType in
  if (fmtType >=? STRING) && (measured >? fmtLength)
  then to_size_t fmtLength
  else if (fmtType =? STRING_WITH_DYNAMIC_PRECISION)
          && (measured >? previousPrecision st)
  then to_size_t (previousPrecision st)
  else measured.

(** [getArgSize(fmtType, previousPrecision, stringBytes,
    const char* str)] *)
Definition getArgSize_char (fmtType : ParamType) (st : scratch)
    (str : string) : Z * scratch :=
  if fmtType <=? NON_STRING then (sizeof_void_ptr, st)
  else
    let stringBytes := truncate fmtType st (strlen str) in
    (to_size_t (stringBytes + sizeof_uint32_t),
     mkScratch (previousPrecision st) stringBytes).

(** [getArgSize(fmtType, previousPrecision, stringBytes,
    const wchar_t* wstr)] *)
Definition getArgSize_wchar_t (fmtType : ParamType) (st : scratch)
    (wstr : list Z) : Z * scratch :=
  if fmtType <=? NON_STRING then (sizeof_void_ptr, st)
  else
    let stringBytes := truncate fmtType st (wcslen wstr) in
    let stringBytes := to_size_t (stringBytes * sizeof_wchar_t) in
    (to_size_t (stringBytes + sizeof_uint32_t),
     mkScratch (previousPrecision st) stringBytes).

End ArgSize.

(** A target with 8-byte pointers, 4-byte [wchar_t] and a 64-bit
    [size_t]. *)
Definition LP64 : Platform :=
  {| sizeof_void_ptr := 8; sizeof_wchar_t := 4; size_t_bits := 64 |}.

(* ================================================================== *)
(** ** Assertions on runs of the scanner *)

(** [holds m s Q E]: run from [s], the action [m] either returns a value
    and a state that satisfy [Q], or stops on a fault and a state that
    satisfy [E]. *)
Definition holds {A} (m : M A) (s : scan)
    (Q : A -> scan -> Prop) (E : fault -> scan -> Prop) : Prop :=
  match m s with
  | Ret a s' => Q a s'
  | Stuck f s' => E f s'
  end.

(** The characters the scan of a specifier steps over before it reaches
    the conversion character. *)
Definition consumable (c : ascii) : bool :=
  isFlag c || (c =? "*")%char || isDigit c || (c =? ".")%char
  || isLength c.

(** Every subscript of the log lies in [0..L]. *)
Definition logged (L : Z) (s : scan) : Prop :=
  Forall (fun i => 0 <= i <= L) (reads s).

(** The index lies in [lo..L] and so does the log. *)
Definition inb (L lo : Z) (s : scan) : Prop :=
  lo <= pos s <= L /\ logged L s.

(** The only fault a run inside the array can meet, with the log still
    inside [0..L]. *)
Definition overflow_only (L : Z) (f : fault) (s : scan) : Prop :=
  f = SignedOverflow /\ logged L s.

(** The truncation of a string argument in the words of the
    specification: a fixed precision applies to a string type that
    carries one, the running precision to a string with a dynamic
    precision, and nothing to a string without precision; the measured
    count is cut down to the precision that applies. *)
Definition applicablePrecision (fmtType : ParamType) (st : scratch)
  : option Z :=
  if STRING <=? fmtType then Some fmtType
  else if fmtType =? STRING_WITH_DYNAMIC_PRECISION
       then Some (previousPrecision st)
  else None.

Definition truncatedCount (fmtType : ParamType) (st : scratch)
    (measured : Z) : Z :=
  match applicablePrecision fmtType st with
  | Some p => Z.min measured p
  | None => measured
  end.


(** What the three tests on the conversion character [c] push. *)
Definition pushed (hasDynamicPrecision : bool) (precision : Z)
    (c : ascii) : list ParamType :=
  (if negb (isTerminal c) then [INVALID] else [])
  ++ (if (c =? "n")%char then [INVALID] else [])
  ++ [if negb (c =? "s")%char then NON_STRING
      else if hasDynamicPrecision then STRING_WITH_DYNAMIC_PRECISION
      else if precision =? -1 then STRING_WITH_NO_PRECISION
      else ParamType_of_int precision].

(** No condition on a fault. *)
Definition any_fault (f : fault) (s : scan) : Prop := True.

(** Text in which every ['%'] is one half of a ["%%"] pair, read from
    the left. *)
Inductive literalText : list ascii -> Prop :=
| literal_end : literalText []
| literal_char c rest :
    c <> "%"%char -> literalText rest -> literalText (c :: rest)
| literal_percent rest :
    literalText rest -> literalText ("%"%char :: "%"%char :: rest).

(* ================================================================== *)
(** ** The shape of the returned sequence *)

(** The number of characters of the array. *)
Definition extent (fmt : list ascii) : Z := Z.of_nat (List.length fmt).

(** The entry, or pair of entries, that closes the group of one
    specifier: [INVALID] then [NON_STRING], [NON_STRING] alone, or one
    string type, which is [STRING_WITH_DYNAMIC_PRECISION] exactly when
    the group holds a [DYNAMIC_PRECISION]. *)
Definition closing (dynPrecision : bool) (last : list ParamType) : Prop :=
  last = [INVALID; NON_STRING]
  \/ last = [NON_STRING]
  \/ (dynPrecision = true /\ last = [STRING_WITH_DYNAMIC_PRECISION])
  \/ (dynPrecision = false /\ last = [STRING_WITH_NO_PRECISION])
  \/ (dynPrecision = false
      /\ exists p, 0 <= p <= INT_MAX /\ last = [ParamType_of_int p]).

(** One entry when the flag is set. *)
Definition entry_if (b : bool) (p : ParamType) : list ParamType :=
  if b then [p] else [].

(** The entries of one specifier: [DYNAMIC_WIDTH] for a ['*'] width,
    [DYNAMIC_PRECISION] for a ['*'] precision, then the closing
    entries. *)
Inductive group : list ParamType -> Prop :=
| group_intro dynWidth dynPrecision last :
    closing dynPrecision last ->
    group (entry_if dynWidth DYNAMIC_WIDTH
           ++ entry_if dynPrecision DYNAMIC_PRECISION
           ++ last).

(** The state between two iterations: [Params] is a concatenation of
    groups, holds no more entries than characters were passed, and
    [pos] is inside the array or one past it. *)
Definition grouped (fmt : list ascii) (s : scan) : Prop :=
  (exists gs, Params s = List.concat gs /\ Forall group gs)
  /\ Z.of_nat (List.length (Params s)) <= pos s
  /\ 0 <= pos s <= extent fmt.





(* ================================================================== *)
(** ** Comparing runs *)

(** The run did not stop for want of iterations. *)
Definition fuelOK {A} (r : res A) : Prop :=
  match r with
  | Stuck OutOfFuel _ => False
  | _ => True
  end.

(** [m'] does what [m] does wherever [m] has iterations enough. *)
Definition more {A} (m m' : M A) : Prop :=
  forall s, fuelOK (m s) -> m' s = m s.

(** Two states of two scans, the first [d] characters ahead of the
    second and with the entries [chunk] before those of the second. *)
Definition shifted (d : Z) (chunk : list ParamType) (s1 s2 : scan) : Prop :=
  pos s1 = pos s2 + d
  /\ Params s1 = chunk ++ Params s2
  /\ 0 <= pos s2.

(** Two results with the same value and shifted states, or two faults of
    the same kind. *)
Definition matching {A} (d : Z) (chunk : list ParamType)
    (r1 r2 : res A) : Prop :=
  match r1, r2 with
  | Ret a1 t1, Ret a2 t2 => a1 = a2 /\ shifted d chunk t1 t2
  | Stuck f1 _, Stuck f2 _ => f1 = f2
  | _, _ => False
  end.

Definition simulates {A} (d : Z) (chunk : list ParamType)
    (m1 m2 : M A) : Prop :=
  forall s1 s2, shifted d chunk s1 s2 -> matching d chunk (m1 s1) (m2 s2).

(** What a run gives its caller: the fault, or the sequence. *)
Definition outcome (r : res unit) : fault + list ParamType :=
  match r with
  | Ret _ s => inr (Params s)
  | Stuck f _ => inl f
  end.

(** The entries [chunk] in front of a returned sequence. *)
Definition prepend (chunk : list ParamType)
    (r : fault + list ParamType) : fault + list ParamType :=
  match r with
  | inr ps => inr (chunk ++ ps)
  | inl f => inl f
  end.

(** The character array of the C string with the characters [l]. *)
Definition c_array (l : list ascii) : list ascii := l ++ [NUL].

(* ================================================================== *)
(** ** The text of a conversion specification *)

(** A width or a precision as written: none, ['*'], or a run of
    digits. *)
Inductive field : Type :=
| Absent
| Star
| Digits (ds : list ascii).

Definition isStar (f : field) : bool :=
  match f with Star => true | _ => false end.

Definition fieldOK (f : field) : Prop :=
  match f with
  | Digits ds => Forall (fun c => isDigit c = true) ds
  | _ => True
  end.

Definition widthText (w : field) : list ascii :=
  match w with
  | Absent => []
  | Star => ["*"%char]
  | Digits ds => ds
  end.

Definition precisionText (p : field) : list ascii :=
  match p with
  | Absent => []
  | Star => ["."%char; "*"%char]
  | Digits ds => "."%char :: ds
  end.

(** The decimal value of a run of digits read after [acc]. *)
Definition digitsFrom (acc : Z) (ds : list ascii) : Z :=
  fold_left (fun a d => 10 * a + (chr d - chr "0")) ds acc.

Definition digitsValue (ds : list ascii) : Z := digitsFrom 0 ds.

(** The precision a field stands for: the value of its digits, and -1
    where there are none to read. *)
Definition precisionValue (p : field) : Z :=
  match p with
  | Digits ds => digitsValue ds
  | _ => -1
  end.

(** ['%'], flags, width, precision, length modifiers and the
    conversion character. *)
Definition specifierText (flags : list ascii) (w p : field)
    (lens : list ascii) (c : ascii) : list ascii :=
  "%"%char :: flags ++ widthText w ++ precisionText p ++ lens ++ [c].

(** The entries printf's grammar gives a conversion: for ['n'],
    [INVALID] and [NON_STRING]; for ['s'], the string type of its
    precision; for any other conversion, [NON_STRING]. *)
Definition conversionEntries (p : field) (c : ascii) : list ParamType :=
  if (c =? "n")%char then [INVALID; NON_STRING]
  else if (c =? "s")%char then
    [match p with
     | Absent => STRING_WITH_NO_PRECISION
     | Star => STRING_WITH_DYNAMIC_PRECISION
     | Digits ds => ParamType_of_int (digitsValue ds)
     end]
  else [NON_STRING].

(** One entry for a ['*'] width, one for a ['*'] precision, then those
    of the conversion. *)
Definition specificationEntries (w p : field) (c : ascii)
  : list ParamType :=
  entry_if (isStar w) DYNAMIC_WIDTH
  ++ entry_if (isStar p) DYNAMIC_PRECISION
  ++ conversionEntries p c.

(** No fault is accepted. *)
Definition no_fault (f : fault) (s : scan) : Prop := False.

(** The list starts with a character that satisfies [P]. *)
Definition headIs (P : ascii -> Prop) (l : list ascii) : Prop :=
  exists c r, l = c :: r /\ P c.

(** A well-formed conversion specification: flags, digits and length
    modifiers from their classes, a conversion character other than
    ['%'], and a precision that fits [int]. *)
Definition specificationOK (flags : list ascii) (w p : field)
    (lens : list ascii) (c : ascii) : Prop :=
  Forall (fun x => isFlag x = true) flags
  /\ fieldOK w /\ fieldOK p
  /\ Forall (fun x => isLength x = true) lens
  /\ isTerminal c = true /\ c <> "%"%char
  /\ precisionValue p <= INT_MAX.

(** A format string cut into pieces: literal text and conversion
    specifications. *)
Inductive piece : Type :=
| Text (t : list ascii)
| Conversion (flags : list ascii) (w p : field) (lens : list ascii)
             (c : ascii).

Definition pieceOK (x : piece) : Prop :=
  match x with
  | Text t => literalText t
  | Conversion flags w p lens c => specificationOK flags w p lens c
  end.

Definition pieceText (x : piece) : list ascii :=
  match x with
  | Text t => t
  | Conversion flags w p lens c => specifierText flags w p lens c
  end.

Definition pieceEntries (x : piece) : list ParamType :=
  match x with
  | Text _ => []
  | Conversion _ w p _ c => specificationEntries w p c
  end.

Definition formatText (xs : list piece) : list ascii :=
  List.concat (map pieceText xs).

Definition formatEntries (xs : list piece) : list ParamType :=
  List.concat (map pieceEntries xs).

(* ================================================================== *)
(** ** Properties every step of the scan keeps *)

(** A property of the state that logging a subscript, [++pos] and a
    [push_back] keep. *)
Definition stable (I : scan -> Prop) : Prop :=
  (forall s, I s -> I (mkScan (pos s) (Params s) (reads s ++ [pos s])))
  /\ (forall s, I s -> I (mkScan (pos s + 1) (Params s) (reads s)))
  /\ (forall s p, I s -> I (mkScan (pos s) (Params s ++ [p]) (reads s))).

(** [m] keeps [I], whether it returns or stops on a fault. *)
Definition preserves {A} (I : scan -> Prop) (m : M A) : Prop :=
  forall s, I s -> holds m s (fun _ s' => I s') (fun _ s' => I s').

(** No element is smaller than one before it. *)
Fixpoint nondecreasing (l : list Z) : Prop :=
  match l with
  | [] => True
  | a :: r => Forall (fun b => a <= b) r /\ nondecreasing r
  end.

(** The log is nondecreasing and no logged subscript is above [pos]. *)
Definition forward (s : scan) : Prop :=
  nondecreasing (reads s) /\ Forall (fun i => i <= pos s) (reads s).

(* ================================================================== *)
(** ** Rules for [holds] *)

Lemma holds_bind {A B} (m : M A) (k : A -> M B) s Q E :
  holds m s (fun a s' => holds (k a) s' Q E) E ->
  holds (bind m k) s Q E.
Proof. unfold holds, bind. destruct (m s); auto. Qed.

Lemma holds_ret {A} (a : A) s (Q : A -> scan -> Prop) E :
  Q a s -> holds (ret a) s Q E.
Proof. auto. Qed.

Lemma holds_weaken {A} (m : M A) s (Q Q' : A -> scan -> Prop)
    (E E' : fault -> scan -> Prop) :
  holds m s Q E ->
  (forall a s', Q a s' -> Q' a s') ->
  (forall f s', E f s' -> E' f s') ->
  holds m s Q' E'.
Proof. unfold holds. destruct (m s); auto. Qed.

Lemma holds_advance s (Q : unit -> scan -> Prop) E :
  Q tt (mkScan (pos s + 1) (Params s) (reads s)) -> holds advance s Q E.
Proof. auto. Qed.

Lemma holds_push_back p s (Q : unit -> scan -> Prop) E :
  Q tt (mkScan (pos s) (Params s ++ [p]) (reads s)) ->
  holds (push_back p) s Q E.
Proof. auto. Qed.

Lemma holds_get_pos s (Q : Z -> scan -> Prop) E :
  Q (pos s) s -> holds get_pos s Q E.
Proof. auto. Qed.

(* ================================================================== *)
(** ** The subscripts of a run stay below a stopping character *)

Section Bounds.

Variable fmt : list ascii.
Variable L : Z.
Variable stop : ascii.
Hypothesis fmt_L : nth_error fmt (Z.to_nat L) = Some stop.
Hypothesis stop_stops : consumable stop = false.


Lemma L_inside : (Z.to_nat L < List.length fmt)%nat.
Proof. apply nth_error_Some. rewrite fmt_L. discriminate. Qed.

Lemma inb_logged lo s : inb L lo s -> logged L s.
Proof. intros [_ Hl]. exact Hl. Qed.

(** A consumable character read at an index up to [L] sits strictly
    before [L]. *)
Lemma consumable_before c s :
  nth_error fmt (Z.to_nat (pos s)) = Some c ->
  0 <= pos s <= L ->
  consumable c = true ->
  pos s < L.
Proof.
  intros Hc Hp Hcons.
  destruct (Z.eq_dec (pos s) L) as [e|]; [|lia].
  rewrite e, fmt_L in Hc. injection Hc as <-. congruence.
Qed.

Lemma fetch_inb lo s (Q : ascii -> scan -> Prop) :
  0 <= lo -> inb L lo s ->
  (forall c s',
      nth_error fmt (Z.to_nat (pos s)) = Some c ->
      pos s' = pos s -> Params s' = Params s -> inb L lo s' ->
      Q c s') ->
  holds (fetch fmt) s Q (overflow_only L).
Proof.
  intros Hlo [Hp Hl] HQ. unfold holds, fetch.
  destruct (pos s <? 0) eqn:Hneg; [lia|].
  destruct (nth_error fmt (Z.to_nat (pos s))) as [c|] eqn:Hc.
  - apply HQ; auto. split; simpl; [lia|].
    unfold logged; simpl. apply Forall_app; split; [exact Hl|].
    constructor; [lia|constructor].
  - exfalso. apply nth_error_None in Hc. pose proof L_inside. lia.
Qed.

Lemma inb_advance lo s :
  inb L lo s -> pos s < L ->
  inb L lo (mkScan (pos s + 1) (Params s) (reads s)).
Proof. intros [Hp Hl] Hlt. split; simpl; [lia|exact Hl]. Qed.

Lemma inb_push_back lo s p :
  inb L lo s -> inb L lo (mkScan (pos s) (Params s ++ [p]) (reads s)).
Proof. intros [Hp Hl]. split; simpl; [lia|exact Hl]. Qed.

Lemma inb_lower lo lo' s : lo' <= lo -> inb L lo s -> inb L lo' s.
Proof. intros Hle [Hp Hl]. split; [lia|exact Hl]. Qed.

Lemma consume_inb p :
  (forall c, p c = true -> consumable c = true) ->
  forall fuel lo s (Q : unit -> scan -> Prop),
    0 <= lo -> inb L lo s -> L - pos s < Z.of_nat fuel ->
    (forall s', inb L (pos s) s' -> Q tt s') ->
    holds (consume fmt p fuel) s Q (overflow_only L).
Proof.
  intros Hp. induction fuel as [|fuel IH]; intros lo s Q Hlo Hin Hfuel HQ.
  - destruct Hin as [Hpos _]. lia.
  - cbn [consume]. apply holds_bind.
    apply (fetch_inb lo); auto. intros c s' Hc Hpos' _ Hin'.
    destruct (p c) eqn:Hpc.
    + assert (Hlt : pos s < L).
      { apply (consumable_before c); [exact Hc|destruct Hin; lia|auto]. }
      apply holds_bind, holds_advance.
      apply (IH lo); auto.
      * apply inb_advance; [exact Hin'|lia].
      * simpl. lia.
      * simpl. intros s'' Hin''. apply HQ.
        apply (inb_lower (pos s' + 1)); [lia|exact Hin''].
    + apply holds_ret, HQ. destruct Hin' as [Hq Hl'].
      split; [destruct Hin; lia|exact Hl'].
Qed.

Lemma int_result_inb v s (Q : Z -> scan -> Prop) :
  logged L s ->
  (v <= INT_MAX -> Q v s) ->
  holds (int_result v) s Q (overflow_only L).
Proof.
  intros Hl HQ. unfold holds, int_result.
  destruct (v <=? INT_MAX) eqn:Hv; cbn.
  - apply HQ. lia.
  - split; [reflexivity|exact Hl].
Qed.

Lemma isDigit_consumable c : isDigit c = true -> consumable c = true.
Proof.
  intros Hd. unfold consumable. rewrite Hd.
  now rewrite !orb_true_r.
Qed.

Lemma isFlag_consumable c : isFlag c = true -> consumable c = true.
Proof. intros Hd. unfold consumable. now rewrite Hd. Qed.

Lemma isLength_consumable c : isLength c = true -> consumable c = true.
Proof.
  intros Hd. unfold consumable. rewrite Hd. now rewrite !orb_true_r.
Qed.

Lemma star_consumable c : (c =? "*")%char = true -> consumable c = true.
Proof.
  intros Hd. unfold consumable. rewrite Hd.
  now rewrite !orb_true_r.
Qed.

Lemma dot_consumable c : (c =? ".")%char = true -> consumable c = true.
Proof.
  intros Hd. unfold consumable. rewrite Hd.
  now rewrite !orb_true_r.
Qed.

Lemma consumePrecision_inb :
  forall fuel lo s precision (Q : Z -> scan -> Prop),
    0 <= lo -> inb L lo s -> L - pos s < Z.of_nat fuel ->
    (forall r s', inb L (pos s) s' -> Q r s') ->
    holds (consumePrecision fmt fuel precision) s Q (overflow_only L).
Proof.
  induction fuel as [|fuel IH]; intros lo s precision Q Hlo Hin Hfuel HQ.
  - destruct Hin as [Hpos _]. lia.
  - cbn [consumePrecision]. apply holds_bind.
    apply (fetch_inb lo); auto. intros c s1 Hc Hpos1 _ Hin1.
    destruct (isDigit c) eqn:Hd.
    + assert (Hlt : pos s < L).
      { apply (consumable_before c);
          [exact Hc|destruct Hin; lia|now apply isDigit_consumable]. }
      apply holds_bind.
      apply (fetch_inb lo); auto. intros d s2 _ Hpos2 _ Hin2.
      apply holds_bind, int_result_inb; [exact (inb_logged _ _ Hin2)|].
      intros _.
      apply holds_bind, int_result_inb; [exact (inb_logged _ _ Hin2)|].
      intros _.
      apply holds_bind, holds_advance.
      apply (IH lo); auto.
      * apply inb_advance; [exact Hin2|lia].
      * simpl. lia.
      * simpl. intros r s3 Hin3. apply HQ.
        apply (inb_lower (pos s2 + 1)); [lia|exact Hin3].
    + apply holds_ret, HQ. destruct Hin1 as [Hq Hl1].
      split; [destruct Hin; lia|exact Hl1].
Qed.

Lemma consumeWidth_inb fuel lo s (Q : unit -> scan -> Prop) :
  0 <= lo -> inb L lo s -> L - pos s < Z.of_nat fuel ->
  (forall s', inb L (pos s) s' -> Q tt s') ->
  holds (consumeWidth fmt fuel) s Q (overflow_only L).
Proof.
  intros Hlo Hin Hfuel HQ. unfold consumeWidth. apply holds_bind.
  apply (fetch_inb lo); auto. intros c s1 Hc Hpos1 _ Hin1.
  destruct (c =? "*")%char eqn:Hstar.
  - assert (Hlt : pos s < L).
    { apply (consumable_before c);
        [exact Hc|destruct Hin; lia|now apply star_consumable]. }
    apply holds_bind, holds_push_back, holds_advance. simpl.
    apply HQ. destruct Hin1 as [Hq Hl1]. split; simpl; [lia|exact Hl1].
  - apply (consume_inb isDigit isDigit_consumable fuel lo); auto.
    + lia.
    + rewrite Hpos1. exact HQ.
Qed.

Lemma consumePrecisionField_inb fuel lo s (Q : bool * Z -> scan -> Prop) :
  0 <= lo -> inb L lo s -> L - pos s < Z.of_nat fuel ->
  (forall r s', inb L (pos s) s' -> Q r s') ->
  holds (consumePrecisionField fmt fuel) s Q (overflow_only L).
Proof.
  intros Hlo Hin Hfuel HQ. unfold consumePrecisionField. apply holds_bind.
  apply (fetch_inb lo); auto. intros c s1 Hc Hpos1 _ Hin1.
  destruct (c =? ".")%char eqn:Hdot.
  - assert (Hlt : pos s < L).
    { apply (consumable_before c);
        [exact Hc|destruct Hin; lia|now apply dot_consumable]. }
    apply holds_bind, holds_advance.
    pose proof (inb_advance _ _ Hin1 ltac:(lia)) as Hin2.
    set (s2 := mkScan (pos s1 + 1) (Params s1) (reads s1)) in *.
    apply holds_bind.
    apply (fetch_inb lo); auto. intros c3 s3 Hc3 Hpos3 _ Hin3.
    destruct (c3 =? "*")%char eqn:Hstar.
    + assert (Hlt3 : pos s2 < L).
      { apply (consumable_before c3);
          [exact Hc3|destruct Hin2; lia|now apply star_consumable]. }
      apply holds_bind, holds_push_back, holds_bind, holds_advance.
      apply holds_ret. simpl. apply HQ.
      destruct Hin3 as [Hq Hl3]. subst s2. simpl in *.
      split; simpl; [lia|exact Hl3].
    + apply holds_bind.
      apply (consumePrecision_inb fuel lo); auto.
      * subst s2; simpl in *; lia.
      * intros r s4 Hin4. apply holds_ret, HQ.
        apply (inb_lower (pos s3)); [subst s2; simpl in *; lia|exact Hin4].
  - apply holds_ret, HQ. destruct Hin1 as [Hq Hl1].
    split; [destruct Hin; lia|exact Hl1].
Qed.

Lemma consumeTerminal_inb h precision lo s (Q : unit -> scan -> Prop) :
  0 <= lo -> inb L lo s ->
  (forall s', logged L s' -> pos s' = pos s + 1 -> Q tt s') ->
  holds (consumeTerminal fmt h precision) s Q (overflow_only L).
Proof.
  intros Hlo Hin HQ. unfold consumeTerminal. apply holds_bind.
  apply (fetch_inb lo); auto. intros c1 s1 _ Hpos1 _ Hin1.
  apply holds_bind.
  apply holds_weaken with (E := overflow_only L)
    (Q := fun _ s' => pos s' = pos s1 /\ inb L lo s').
  { destruct (negb (isTerminal c1)).
    - apply holds_push_back. split; [reflexivity|now apply inb_push_back].
    - apply holds_ret. auto. }
  2: auto.
  intros _ s2 [Hpos2 Hin2]. apply holds_bind.
  apply (fetch_inb lo); auto. intros c3 s3 _ Hpos3 _ Hin3.
  apply holds_bind.
  apply holds_weaken with (E := overflow_only L)
    (Q := fun _ s' => pos s' = pos s3 /\ inb L lo s').
  { destruct (c3 =? "n")%char.
    - apply holds_push_back. split; [reflexivity|now apply inb_push_back].
    - apply holds_ret. auto. }
  2: auto.
  intros _ s4 [Hpos4 Hin4]. apply holds_bind.
  apply (fetch_inb lo); auto. intros c5 s5 _ Hpos5 _ Hin5.
  apply holds_bind.
  apply holds_weaken with (E := overflow_only L)
    (Q := fun _ s' => pos s' = pos s5 /\ inb L lo s').
  { destruct (negb (c5 =? "s")%char);
      [|destruct h; [|destruct (precision =? -1)]];
      apply holds_push_back; (split; [reflexivity|now apply inb_push_back]). }
  2: auto.
  intros _ s6 [Hpos6 Hin6]. apply holds_advance, HQ; simpl.
  - exact (inb_logged _ _ Hin6).
  - lia.
Qed.

Lemma specifier_inb fuel lo s (Q : unit -> scan -> Prop) :
  0 <= lo -> inb L lo s -> L < Z.of_nat fuel ->
  (forall s', logged L s' -> pos s < pos s' <= L + 1 -> Q tt s') ->
  holds (specifier fmt fuel) s Q (overflow_only L).
Proof.
  intros Hlo Hin Hfuel HQ. unfold specifier.
  assert (H0 : 0 <= pos s) by (destruct Hin; lia).
  apply holds_bind.
  apply (consume_inb isFlag isFlag_consumable fuel lo); auto; [lia|].
  intros s1 Hin1. assert (H1 : pos s <= pos s1 <= L) by (destruct Hin1; lia).
  apply holds_bind.
  apply (consumeWidth_inb fuel (pos s)); auto; [lia|].
  intros s2 Hin2. assert (H2 : pos s1 <= pos s2 <= L) by (destruct Hin2; lia).
  apply holds_bind.
  apply (consumePrecisionField_inb fuel (pos s1)); auto; [lia|lia|].
  intros hp s3 Hin3.
  assert (H3 : pos s2 <= pos s3 <= L) by (destruct Hin3; lia).
  apply holds_bind.
  apply (consume_inb isLength isLength_consumable fuel (pos s2)); auto;
    [lia|lia|].
  intros s4 Hin4. assert (H4 : pos s3 <= pos s4 <= L) by (destruct Hin4; lia).
  apply (consumeTerminal_inb _ _ (pos s3)); auto; [lia|].
  intros s5 Hl5 Hpos5. apply HQ; [exact Hl5|lia].
Qed.

Lemma iteration_inb fuel s (Q : unit -> scan -> Prop) :
  0 <= pos s < L -> logged L s -> L < Z.of_nat fuel ->
  (forall s', logged L s' -> pos s < pos s' <= L + 1 -> Q tt s') ->
  holds (iteration fmt fuel) s Q (overflow_only L).
Proof.
  intros Hpos Hl Hfuel HQ. unfold iteration.
  assert (Hin : inb L 0 s) by (split; [lia|exact Hl]).
  apply holds_bind.
  apply (fetch_inb 0); auto; [lia|]. intros c s1 _ Hpos1 _ Hin1.
  destruct (negb (c =? "%")%char).
  - apply holds_advance, HQ; simpl; [exact (inb_logged _ _ Hin1)|lia].
  - apply holds_bind, holds_advance.
    pose proof (inb_advance _ _ Hin1 ltac:(lia)) as Hin2.
    set (s2 := mkScan (pos s1 + 1) (Params s1) (reads s1)) in *.
    assert (Hpos2 : pos s2 = pos s + 1) by (subst s2; simpl; lia).
    apply holds_bind.
    apply (fetch_inb 0); auto; [lia|]. intros c3 s3 _ Hpos3 _ Hin3.
    destruct (c3 =? "%")%char.
    + apply holds_advance, HQ; simpl; [exact (inb_logged _ _ Hin3)|lia].
    + apply (specifier_inb fuel 0); auto; [lia|].
      intros s4 Hl4 Hpos4. apply HQ; [exact Hl4|lia].
Qed.

Lemma scanLoop_inb N fuel :
  N - 1 <= L -> L < Z.of_nat fuel ->
  forall loops s,
    0 <= pos s <= L + 1 -> logged L s ->
    1 <= Z.of_nat loops -> N - pos s <= Z.of_nat loops ->
    holds (scanLoop fmt N fuel loops) s
          (fun _ s' => logged L s') (overflow_only L).
Proof.
  intros HN Hfuel. induction loops as [|loops IH]; intros s Hpos Hl H1 Hloops.
  - lia.
  - cbn [scanLoop]. apply holds_bind, holds_get_pos.
    destruct (pos s <? N - 1) eqn:Hlt.
    + apply holds_bind. apply iteration_inb; auto; [lia|].
      intros s1 Hl1 Hpos1. apply IH; auto; lia.
    + apply holds_ret. exact Hl.
Qed.

End Bounds.

(* ================================================================== *)
(** ** [INVALID] is never pushed alone *)




Section InvalidFollowed.

Variable fmt : list ascii.


Lemma fetch_any s (Q : ascii -> scan -> Prop) :
  (forall c,
      nth_error fmt (Z.to_nat (pos s)) = Some c ->
      Q c (mkScan (pos s) (Params s) (reads s ++ [pos s]))) ->
  holds (fetch fmt) s Q any_fault.
Proof.
  intros HQ. unfold holds, fetch.
  destruct (pos s <? 0); [exact I|].
  destruct (nth_error fmt (Z.to_nat (pos s))); [auto|exact I].
Qed.


Lemma isDigit_value c : isDigit c = true -> 0 <= chr c - chr "0".
Proof.
  unfold isDigit. intros Hd. apply andb_prop in Hd as [Hd _]. lia.
Qed.




(** The run of the terminal block on the conversion character [c]. *)
Lemma consumeTerminal_run h precision s c :
  0 <= pos s ->
  nth_error fmt (Z.to_nat (pos s)) = Some c ->
  consumeTerminal fmt h precision s
  = Ret tt (mkScan (pos s + 1) (Params s ++ pushed h precision c)
                   (reads s ++ [pos s; pos s; pos s])).
Proof.
  intros Hpos Hc. unfold consumeTerminal, bind, fetch, pushed.
  destruct (pos s <? 0) eqn:Hneg; [lia|]. rewrite Hc.
  unfold push_back, advance, ret.
  destruct (negb (isTerminal c)); cbn [pos Params reads];
    rewrite Hneg, Hc;
    (destruct (c =? "n")%char; cbn [pos Params reads];
     rewrite Hneg, Hc;
     (destruct (negb (c =? "s")%char);
      [|destruct h; [|destruct (precision =? -1)]]));
    cbn [pos Params reads List.app]; rewrite <- ?app_assoc; reflexivity.
Qed.

Lemma consumeTerminal_pushed h precision s (Q : unit -> scan -> Prop) :
  (forall c,
      nth_error fmt (Z.to_nat (pos s)) = Some c ->
      Q tt (mkScan (pos s + 1) (Params s ++ pushed h precision c)
                   (reads s ++ [pos s; pos s; pos s]))) ->
  holds (consumeTerminal fmt h precision) s Q any_fault.
Proof.
  intros HQ. unfold holds.
  destruct (pos s <? 0) eqn:Hneg.
  - unfold consumeTerminal, bind, fetch. rewrite Hneg. exact I.
  - destruct (nth_error fmt (Z.to_nat (pos s))) as [c|] eqn:Hc.
    + rewrite (consumeTerminal_run h precision s c); [auto|lia|exact Hc].
    + unfold consumeTerminal, bind, fetch. rewrite Hneg, Hc. exact I.
Qed.







End InvalidFollowed.

(* ================================================================== *)
(** ** Runs on a C string *)

Lemma length_list_ascii_of_string s :
  List.length (list_ascii_of_string s) = String.length s.
Proof. induction s as [|c s IH]; simpl; [reflexivity|now rewrite IH]. Qed.




(** With a stopping character at [L] and [N - 1 <= L], the run returns
    or meets a signed overflow, and its log stays in [0..L]. *)
Lemma run_getParamInfo_logged fmt N L stop :
  nth_error fmt (Z.to_nat L) = Some stop ->
  consumable stop = false ->
  0 <= L -> 0 <= N -> N - 1 <= L ->
  holds (scanLoop fmt N (S (List.length fmt)) (S (Z.to_nat N))) scan0
        (fun _ s' => logged L s') (overflow_only L).
Proof.
  intros Hstop Hc HL HN HNL.
  apply (scanLoop_inb fmt L stop Hstop Hc); simpl pos; try lia.
  - pose proof (L_inside fmt L stop Hstop). lia.
  - constructor.
Qed.

Lemma run_outcome fmt N L :
  holds (scanLoop fmt N (S (List.length fmt)) (S (Z.to_nat N))) scan0
        (fun _ s' => logged L s') (overflow_only L) ->
  (getParamInfo fmt N = inl SignedOverflow
   \/ exists ps, getParamInfo fmt N = inr ps)
  /\ Forall (fun i => 0 <= i <= L) (readsOf fmt N).
Proof.
  unfold holds, getParamInfo, readsOf, run_getParamInfo.
  destruct (scanLoop fmt N (S (List.length fmt)) (S (Z.to_nat N)) scan0)
    as [u s'|f s']; simpl.
  - intros Hl. split; [right; eauto|exact Hl].
  - intros [-> Hl]. split; [left; reflexivity|exact Hl].
Qed.

(* ================================================================== *)
(** ** The classifier on the strings of the specification *)

(** C1: on ["%n"] and on ["%q"], each classified with its own length,
    the classifier returns two entries, [INVALID] and then [NON_STRING],
    not the one-element sequence [[INVALID]]. *)
Theorem getParamInfo_percent_n_q :
  getParamInfo (c_str "%n") (strlen "%n") = inr [INVALID; NON_STRING]
  /\ getParamInfo (c_str "%q") (strlen "%q") = inr [INVALID; NON_STRING]
  /\ getParamInfo (c_str "%n") (strlen "%n") <> inr [INVALID]
  /\ getParamInfo (c_str "%q") (strlen "%q") <> inr [INVALID].
Proof. repeat split; try reflexivity; vm_compute; discriminate. Qed.

(** C5: ["%d"] gives [[NON_STRING]], ["%s"] gives
    [[STRING_WITH_NO_PRECISION]], ["%.5s"] gives the string of precision
    5, ["%.*s"] gives [[DYNAMIC_PRECISION;
    STRING_WITH_DYNAMIC_PRECISION]] and ["%*d"] gives [[DYNAMIC_WIDTH;
    NON_STRING]], each classified with the length of the string. *)
Theorem getParamInfo_examples :
  getParamInfo (c_str "%d") (strlen "%d") = inr [NON_STRING]
  /\ getParamInfo (c_str "%s") (strlen "%s")
     = inr [STRING_WITH_NO_PRECISION]
  /\ getParamInfo (c_str "%.5s") (strlen "%.5s") = inr [ParamType_of_int 5]
  /\ getParamInfo (c_str "%.*s") (strlen "%.*s")
     = inr [DYNAMIC_PRECISION; STRING_WITH_DYNAMIC_PRECISION]
  /\ getParamInfo (c_str "%*d") (strlen "%*d")
     = inr [DYNAMIC_WIDTH; NON_STRING].
Proof. repeat split; reflexivity. Qed.

(* ================================================================== *)
(** ** The subscripts the classifier evaluates *)



(* ================================================================== *)
(** ** [INVALID] in the returned sequence *)



(* ================================================================== *)
(** ** Literal text *)

Section Literal.

Variable fuel : nat.

(** The iteration that meets ["%%"] steps over both characters and
    pushes nothing. *)
Lemma iteration_percent_percent fmt s :
  0 <= pos s ->
  nth_error fmt (Z.to_nat (pos s)) = Some "%"%char ->
  nth_error fmt (Z.to_nat (pos s + 1)) = Some "%"%char ->
  iteration fmt fuel s
  = Ret tt (mkScan (pos s + 2) (Params s)
                   (reads s ++ [pos s; pos s + 1])).
Proof.
  intros Hpos H0 H1. unfold iteration, bind, fetch, advance.
  destruct (pos s <? 0) eqn:Hneg; [lia|]. rewrite H0.
  cbn [negb Ascii.eqb Bool.eqb andb pos Params reads].
  destruct (pos s + 1 <? 0) eqn:Hneg1; [lia|]. rewrite H1.
  cbn [negb Ascii.eqb Bool.eqb andb pos Params reads].
  rewrite <- app_assoc. f_equal. f_equal. lia.
Qed.

(** The iteration that meets another character than ['%'] steps over
    it and pushes nothing. *)
Lemma iteration_char fmt s c :
  0 <= pos s ->
  nth_error fmt (Z.to_nat (pos s)) = Some c ->
  c <> "%"%char ->
  iteration fmt fuel s
  = Ret tt (mkScan (pos s + 1) (Params s) (reads s ++ [pos s])).
Proof.
  intros Hpos H0 Hc. unfold iteration, bind, fetch, advance.
  destruct (pos s <? 0) eqn:Hneg; [lia|]. rewrite H0.
  destruct (c =? "%")%char eqn:He.
  - apply Ascii.eqb_eq in He. contradiction.
  - reflexivity.
Qed.

Lemma nth_error_middle (pre suf : list ascii) c :
  nth_error (pre ++ c :: suf) (List.length pre) = Some c.
Proof.
  rewrite nth_error_app2 by lia. now rewrite Nat.sub_diag.
Qed.

Lemma scanLoop_literal N :
  forall loops suf pre s,
    literalText suf ->
    N = Z.of_nat (List.length pre + List.length suf) ->
    pos s = Z.of_nat (List.length pre) ->
    Params s = [] ->
    (1 <= loops)%nat -> (List.length suf <= loops)%nat ->
    holds (scanLoop (pre ++ suf ++ [NUL]) N fuel loops) s
          (fun _ s' => Params s' = []) (fun _ _ => False).
Proof.
  induction loops as [|loops IH]; intros suf pre s Hlit HN Hpos HP H1 Hl;
    [lia|].
  cbn [scanLoop]. apply holds_bind, holds_get_pos.
  destruct (pos s <? N - 1) eqn:Hlt; [|apply holds_ret; exact HP].
  apply holds_bind. unfold holds at 1.
  destruct Hlit as [|c rest Hc Hrest|rest Hrest].
  - simpl in HN. lia.
  - rewrite (iteration_char _ s c); [| lia | | exact Hc].
    2:{ rewrite Hpos, Nat2Z.id. cbn [List.app]. apply nth_error_middle. }
    replace (pre ++ (c :: rest) ++ [NUL])
      with ((pre ++ [c]) ++ rest ++ [NUL])
      by (rewrite <- app_assoc; reflexivity).
    simpl in HN, Hl.
    apply IH; simpl; auto; rewrite ?length_app; simpl; try lia.
  - rewrite (iteration_percent_percent _ s); [| lia | | ].
    2:{ rewrite Hpos, Nat2Z.id. cbn [List.app]. apply nth_error_middle. }
    2:{ replace (Z.to_nat (pos s + 1)) with (List.length (pre ++ ["%"%char]))
          by (rewrite length_app; simpl; lia).
        replace (pre ++ ("%"%char :: "%"%char :: rest) ++ [NUL])
          with ((pre ++ ["%"%char]) ++ "%"%char :: rest ++ [NUL])
          by (rewrite <- app_assoc; reflexivity).
        apply nth_error_middle. }
    replace (pre ++ ("%"%char :: "%"%char :: rest) ++ [NUL])
      with ((pre ++ ["%"%char; "%"%char]) ++ rest ++ [NUL])
      by (rewrite <- app_assoc; reflexivity).
    simpl in HN, Hl.
    apply IH; simpl; auto; rewrite ?length_app; simpl; try lia.
Qed.

End Literal.

Lemma literalText_no_percent (l : list ascii) :
  (forall c, In c l -> c <> "%"%char) -> literalText l.
Proof.
  induction l as [|c l IH]; intros Hno; constructor.
  - apply Hno. now left.
  - apply IH. intros c' Hin. apply Hno. now right.
Qed.

Lemma getParamInfo_literalText s :
  literalText (list_ascii_of_string s) ->
  getParamInfo (c_str s) (strlen s) = inr [].
Proof.
  intros Hlit. unfold getParamInfo, run_getParamInfo.
  pose proof (scanLoop_literal (S (List.length (c_str s))) (strlen s)
                (S (Z.to_nat (strlen s))) (list_ascii_of_string s) [] scan0
                Hlit) as Hrun.
  unfold holds in Hrun. cbn [List.app] in Hrun. fold (c_str s) in Hrun.
  destruct (scanLoop (c_str s) (strlen s) (S (List.length (c_str s)))
              (S (Z.to_nat (strlen s))) scan0) as [u s'|f s'].
  - rewrite Hrun; auto; try (simpl; lia).
    + unfold strlen. simpl. now rewrite length_list_ascii_of_string.
    + unfold strlen. rewrite Nat2Z.id, length_list_ascii_of_string. lia.
  - exfalso. apply Hrun; auto; try (simpl; lia).
    + unfold strlen. simpl. now rewrite length_list_ascii_of_string.
    + unfold strlen. rewrite Nat2Z.id, length_list_ascii_of_string. lia.
Qed.

(** C10: a format string without ['%'] classifies to the empty
    sequence; so does every string in which each ['%'] belongs to a
    ["%%"] pair, ["%%"] itself among them; and the iteration that meets
    a ["%%"] pair steps over its two characters and leaves [Params] as
    it was (so ["%d%%%s"] classifies as ["%d%s"] does). *)
Theorem getParamInfo_literal (s : string) :
  ((forall c, In c (list_ascii_of_string s) -> c <> "%"%char) ->
   getParamInfo (c_str s) (strlen s) = inr [])
  /\ (literalText (list_ascii_of_string s) ->
      getParamInfo (c_str s) (strlen s) = inr [])
  /\ getParamInfo (c_str "%%") (strlen "%%") = inr []
  /\ getParamInfo (c_str "%d%%%s") (strlen "%d%%%s")
     = inr [NON_STRING; STRING_WITH_NO_PRECISION]
  /\ (forall fmt fuel st,
         0 <= pos st ->
         nth_error fmt (Z.to_nat (pos st)) = Some "%"%char ->
         nth_error fmt (Z.to_nat (pos st + 1)) = Some "%"%char ->
         iteration fmt fuel st
         = Ret tt (mkScan (pos st + 2) (Params st)
                          (reads st ++ [pos st; pos st + 1]))).
Proof.
  repeat split.
  - intros Hno. now apply getParamInfo_literalText, literalText_no_percent.
  - apply getParamInfo_literalText.
  - intros fmt fuel st. apply iteration_percent_percent.
Qed.

Lemma getParamInfo_literal_witness :
  getParamInfo (c_str "hello") (strlen "hello") = inr []
  /\ getParamInfo (c_str "100%% done") (strlen "100%% done") = inr []
  /\ iteration (c_str "%%") 3 scan0 = Ret tt (mkScan 2 [] [0; 1]).
Proof.
  split; [|split].
  - apply (proj1 (getParamInfo_literal "hello")).
    simpl. intros c Hc.
    repeat (destruct Hc as [<-|Hc]; [discriminate|]). contradiction.
  - apply (proj1 (proj2 (getParamInfo_literal "100%% done"))).
    simpl.
    repeat first [ apply literal_end
                 | apply literal_percent
                 | apply literal_char; [discriminate|] ].
  - apply (proj2 (proj2 (proj2 (proj2 (getParamInfo_literal ""))))
             (c_str "%%") 3%nat scan0);
      [simpl; lia|reflexivity|reflexivity].
Defined.

(* ================================================================== *)
(** ** Sizes of arguments *)

Lemma to_size_t_small {platform : Platform} v :
  0 <= v < 2 ^ size_t_bits -> to_size_t v = v.
Proof. intros Hv. unfold to_size_t. now apply Z.mod_small. Qed.

Lemma size_t_holds_16 {platform : Platform} :
  16 <= size_t_bits -> 2 ^ 16 <= 2 ^ size_t_bits.
Proof. intros Hb. apply Z.pow_le_mono_r; lia. Qed.

(** C9: for a scalar of type [T], the size is [sizeof(T)] whatever the
    type of the parameter; with [DYNAMIC_PRECISION] the running
    precision becomes the argument converted by [as_uint64_t] (for an
    integer, its value as a 64-bit unsigned number) and the content
    length stays; with any other type both references stay as they
    were. *)
Theorem getArgSize_scalar {T : Type} `{Scalar T}
    (fmtType : ParamType) (st : scratch) (arg : T) :
  fst (getArgSize fmtType st arg) = sizeof T
  /\ stringBytes (snd (getArgSize fmtType st arg)) = stringBytes st
  /\ (fmtType = DYNAMIC_PRECISION ->
      previousPrecision (snd (getArgSize fmtType st arg)) = as_uint64_t arg)
  /\ (fmtType <> DYNAMIC_PRECISION ->
      snd (getArgSize fmtType st arg) = st)
  /\ (forall bytes (i : Integer bytes), as_uint64_t i = value i mod 2 ^ 64).
Proof.
  unfold getArgSize. split; [reflexivity|]. split; [|split; [|split]].
  - destruct (fmtType =? DYNAMIC_PRECISION); reflexivity.
  - intros ->. reflexivity.
  - intros Hne. destruct (fmtType =? DYNAMIC_PRECISION) eqn:He;
      [apply Z.eqb_eq in He; contradiction|reflexivity].
  - reflexivity.
Qed.

Lemma getArgSize_scalar_witness :
  previousPrecision
    (snd (getArgSize DYNAMIC_PRECISION (mkScratch 0 0) (mkInteger 3 : c_int)))
  = as_uint64_t (mkInteger 3 : c_int)
  /\ snd (getArgSize NON_STRING (mkScratch 7 9) (mkInteger 3 : c_int))
     = mkScratch 7 9.
Proof.
  split.
  - apply (proj1 (proj2 (proj2
             (getArgSize_scalar DYNAMIC_PRECISION (mkScratch 0 0)
                (mkInteger 3 : c_int))))).
    reflexivity.
  - apply (proj1 (proj2 (proj2 (proj2
             (getArgSize_scalar NON_STRING (mkScratch 7 9)
                (mkInteger 3 : c_int)))))).
    discriminate.
Defined.

(** C6: for a [void*] argument the size is [sizeof(void* )] whatever the
    type of the parameter, and neither reference is written; for a
    narrow or a wide string whose parameter type is at most
    [NON_STRING] the size is [sizeof(void* )] as well, the string is not
    measured and neither reference is written. *)
Theorem getArgSize_pointer_width {platform : Platform}
    (fmtType : ParamType) (st : scratch) :
  (forall arg, getArgSize_void fmtType st arg = (sizeof_void_ptr, st))
  /\ (fmtType <= NON_STRING ->
      (forall str, getArgSize_char fmtType st str = (sizeof_void_ptr, st))
      /\ (forall wstr,
            getArgSize_wchar_t fmtType st wstr = (sizeof_void_ptr, st))).
Proof.
  split; [reflexivity|].
  intros Hle. apply Z.leb_le in Hle.
  unfold getArgSize_char, getArgSize_wchar_t. rewrite Hle. auto.
Qed.

Lemma getArgSize_pointer_width_witness :
  getArgSize_char (platform := LP64) DYNAMIC_WIDTH (mkScratch 1 2) "hello"
  = (8, mkScratch 1 2)
  /\ getArgSize_wchar_t (platform := LP64) INVALID (mkScratch 1 2) [104; 105]
     = (8, mkScratch 1 2).
Proof.
  split.
  - apply (proj2 (getArgSize_pointer_width (platform := LP64)
                    DYNAMIC_WIDTH (mkScratch 1 2))).
    unfold DYNAMIC_WIDTH, NON_STRING. lia.
  - apply (proj2 (getArgSize_pointer_width (platform := LP64)
                    INVALID (mkScratch 1 2))).
    unfold INVALID, NON_STRING. lia.
Defined.

Lemma to_size_t_16 {platform : Platform} v :
  16 <= size_t_bits -> 0 <= v < 2 ^ 16 -> to_size_t v = v.
Proof.
  intros Hb Hv. apply to_size_t_small.
  pose proof (size_t_holds_16 Hb). lia.
Qed.

(** C3: sizing an integer argument of value 3 under [DYNAMIC_PRECISION]
    sets the running precision to 3 (and returns the integer's own
    size); the narrow string ["hello"] sized next under
    [STRING_WITH_DYNAMIC_PRECISION] gets the content length 3 and the
    size 3 plus [sizeof(uint32_t)]. *)
Theorem dynamic_precision_threading {platform : Platform}
    (bytes : Z) (st : scratch) :
  16 <= size_t_bits ->
  let r1 := getArgSize DYNAMIC_PRECISION st (mkInteger 3 : Integer bytes) in
  let r2 :=
    getArgSize_char STRING_WITH_DYNAMIC_PRECISION (snd r1) "hello" in
  fst r1 = bytes
  /\ previousPrecision (snd r1) = 3
  /\ stringBytes (snd r2) = 3
  /\ fst r2 = 3 + sizeof_uint32_t.
Proof.
  intros Hb. cbn -[to_size_t Z.add to_uint64_t].
  change (to_uint64_t 3) with 3. cbn -[to_size_t Z.add].
  rewrite (to_size_t_16 3 Hb) by lia.
  rewrite (to_size_t_16 (3 + sizeof_uint32_t) Hb)
    by (unfold sizeof_uint32_t; lia).
  auto.
Qed.

Lemma dynamic_precision_threading_witness :
  previousPrecision
    (snd (getArgSize DYNAMIC_PRECISION (mkScratch 0 0)
            (mkInteger 3 : c_int))) = 3
  /\ getArgSize_char (platform := LP64) STRING_WITH_DYNAMIC_PRECISION
       (snd (getArgSize DYNAMIC_PRECISION (mkScratch 0 0)
               (mkInteger 3 : c_int))) "hello"
     = (7, mkScratch 3 3).
Proof.
  pose proof (dynamic_precision_threading (platform := LP64) 4
                (mkScratch 0 0)) as Hthread.
  split.
  - apply Hthread. simpl. lia.
  - reflexivity.
Defined.

(** C4: the narrow string ["hello world"] measures 11; sized under the
    string type of precision 5 its content length is 5 and its size 5
    plus [sizeof(uint32_t)]; sized under [STRING_WITH_NO_PRECISION] its
    content length is 11 and its size 11 plus [sizeof(uint32_t)]. *)
Theorem hello_world_truncation {platform : Platform} (st : scratch) :
  16 <= size_t_bits ->
  strlen "hello world" = 11
  /\ getArgSize_char (ParamType_of_int 5) st "hello world"
     = (5 + sizeof_uint32_t, mkScratch (previousPrecision st) 5)
  /\ getArgSize_char STRING_WITH_NO_PRECISION st "hello world"
     = (11 + sizeof_uint32_t, mkScratch (previousPrecision st) 11).
Proof.
  intros Hb. split; [reflexivity|].
  unfold getArgSize_char, truncate, ParamType_of_int.
  change (to_uint32_t 5) with 5.
  change (to_uint32_t STRING_WITH_NO_PRECISION) with (2 ^ 32 - 1).
  cbn -[to_size_t Z.add].
  rewrite (to_size_t_16 5 Hb) by lia.
  rewrite (to_size_t_16 (5 + sizeof_uint32_t) Hb)
    by (unfold sizeof_uint32_t; lia).
  rewrite (to_size_t_16 (11 + sizeof_uint32_t) Hb)
    by (unfold sizeof_uint32_t; lia).
  auto.
Qed.

Lemma hello_world_truncation_witness :
  getArgSize_char (platform := LP64) (ParamType_of_int 5) (mkScratch 0 0)
    "hello world"
  = (9, mkScratch 0 5).
Proof.
  apply (hello_world_truncation (platform := LP64) (mkScratch 0 0)).
  simpl. lia.
Defined.

(** The value [truncate] leaves is the measured count cut down to the
    precision that applies, whenever the measured count fits [size_t]. *)
Lemma truncate_truncatedCount {platform : Platform} fmtType st measured :
  NON_STRING < fmtType <= INT_MAX ->
  0 <= previousPrecision st ->
  0 <= measured < 2 ^ size_t_bits ->
  truncate fmtType st measured = truncatedCount fmtType st measured
  /\ 0 <= truncatedCount fmtType st measured <= measured.
Proof.
  intros Ht Hp Hm.
  unfold truncate, truncatedCount, applicablePrecision, to_uint32_t.
  unfold NON_STRING, INT_MAX, STRING, STRING_WITH_DYNAMIC_PRECISION in *.
  destruct (0 <=? fmtType) eqn:H0.
  - apply Z.leb_le in H0.
    replace (fmtType >=? 0) with true by (symmetry; apply Z.geb_le; lia).
    rewrite (Z.mod_small fmtType) by lia.
    destruct (measured >? fmtType) eqn:Hgt; cbn [andb].
    + rewrite Z.gtb_lt in Hgt. rewrite to_size_t_small by lia. lia.
    + assert (measured <= fmtType)
        by (destruct (Z.gtb_spec measured fmtType); [discriminate|lia]).
      replace (fmtType =? -2) with false by (symmetry; apply Z.eqb_neq; lia).
      cbn [andb]. lia.
  - apply Z.leb_gt in H0.
    replace (fmtType >=? 0) with false
      by (symmetry; destruct (Z.geb_spec fmtType 0); [lia|reflexivity]).
    cbn [andb].
    destruct (fmtType =? -2) eqn:He; cbn [andb]; [|lia].
    destruct (measured >? previousPrecision st) eqn:Hgt.
    + rewrite Z.gtb_lt in Hgt. rewrite to_size_t_small by lia. lia.
    + assert (measured <= previousPrecision st)
        by (destruct (Z.gtb_spec measured (previousPrecision st));
            [discriminate|lia]).
      lia.
Qed.

(** C8: for a wide string whose parameter type is above [NON_STRING],
    the measured count of elements is first cut down to the precision
    that applies (the fixed precision of a string type, the running
    precision under [STRING_WITH_DYNAMIC_PRECISION], none otherwise),
    then multiplied by [sizeof(wchar_t)]; that number of bytes is stored
    as the content length and, increased by [sizeof(uint32_t)], is the
    size returned.  The running precision is not written. *)
Theorem getArgSize_wide_string {platform : Platform}
    (fmtType : ParamType) (st : scratch) (wstr : list Z) :
  NON_STRING < fmtType <= INT_MAX ->
  0 <= previousPrecision st ->
  0 < sizeof_wchar_t ->
  wcslen wstr * sizeof_wchar_t + sizeof_uint32_t < 2 ^ size_t_bits ->
  let count := truncatedCount fmtType st (wcslen wstr) in
  getArgSize_wchar_t fmtType st wstr
  = (count * sizeof_wchar_t + sizeof_uint32_t,
     mkScratch (previousPrecision st) (count * sizeof_wchar_t)).
Proof.
  intros Ht Hp Hw Hfit count.
  assert (Hlen : 0 <= wcslen wstr) by (unfold wcslen; lia).
  unfold sizeof_uint32_t in *.
  assert (Hm : 0 <= wcslen wstr < 2 ^ size_t_bits) by nia.
  destruct (truncate_truncatedCount fmtType st (wcslen wstr) Ht Hp Hm)
    as [Htr Hcount].
  fold count in Hcount, Htr.
  unfold getArgSize_wchar_t.
  replace (fmtType <=? NON_STRING) with false
    by (symmetry; apply Z.leb_gt; lia).
  rewrite Htr.
  assert (Hbytes : 0 <= count * sizeof_wchar_t
                   <= wcslen wstr * sizeof_wchar_t) by nia.
  rewrite (to_size_t_small (count * sizeof_wchar_t)) by lia.
  rewrite to_size_t_small by (unfold sizeof_uint32_t; lia).
  reflexivity.
Qed.

Lemma getArgSize_wide_string_witness :
  getArgSize_wchar_t (platform := LP64) (ParamType_of_int 2)
    (mkScratch 3 88) [104; 101; 108; 108; 111]
  = (2 * 4 + 4, mkScratch 3 (2 * 4)).
Proof.
  apply (getArgSize_wide_string (platform := LP64) (ParamType_of_int 2)
           (mkScratch 3 88) [104; 101; 108; 108; 111]).
  - unfold NON_STRING, INT_MAX, ParamType_of_int. lia.
  - simpl. lia.
  - simpl. lia.
  - vm_compute. reflexivity.
Defined.

(* ================================================================== *)
(** ** What each part of the scan does to [Params] and [pos] *)

Section Effects.

Variable fmt : list ascii.

Lemma fetch_inside s (Q : ascii -> scan -> Prop) :
  0 <= pos s ->
  (forall c,
      nth_error fmt (Z.to_nat (pos s)) = Some c ->
      pos s < extent fmt ->
      Q c (mkScan (pos s) (Params s) (reads s ++ [pos s]))) ->
  holds (fetch fmt) s Q any_fault.
Proof.
  intros Hpos HQ. apply fetch_any. intros c Hc. apply HQ; [exact Hc|].
  assert (Z.to_nat (pos s) < List.length fmt)%nat
    by (apply nth_error_Some; rewrite Hc; discriminate).
  unfold extent. lia.
Qed.

Lemma consume_effect p :
  forall fuel s (Q : unit -> scan -> Prop),
    0 <= pos s <= extent fmt ->
    (forall s',
        Params s' = Params s -> pos s <= pos s' <= extent fmt ->
        Q tt s') ->
    holds (consume fmt p fuel) s Q any_fault.
Proof.
  induction fuel as [|fuel IH]; intros s Q Hpos HQ; [exact I|].
  cbn [consume]. apply holds_bind, fetch_inside; [lia|]. intros c _ Hlt.
  destruct (p c).
  - apply holds_bind, holds_advance, IH; simpl; [lia|].
    intros s' HP Hp'. apply HQ; [exact HP|lia].
  - apply holds_ret, HQ; simpl; [reflexivity|lia].
Qed.

Lemma consumePrecision_effect :
  forall fuel s precision (Q : Z -> scan -> Prop),
    0 <= pos s <= extent fmt ->
    0 <= precision <= INT_MAX ->
    (forall r s',
        Params s' = Params s -> pos s <= pos s' <= extent fmt ->
        0 <= r <= INT_MAX ->
        Q r s') ->
    holds (consumePrecision fmt fuel precision) s Q any_fault.
Proof.
  induction fuel as [|fuel IH]; intros s precision Q Hpos Hprec HQ;
    [exact I|].
  cbn [consumePrecision]. apply holds_bind, fetch_inside; [lia|].
  intros c Hc Hlt. destruct (isDigit c) eqn:Hd.
  - apply holds_bind, fetch_inside; [simpl; lia|]. simpl pos.
    intros d Hdc _. assert (d = c) by congruence. subst d.
    pose proof (isDigit_value c Hd) as Hv.
    unfold int_result.
    destruct (10 * precision <=? INT_MAX) eqn:H10; [|exact I].
    apply holds_bind, holds_ret.
    destruct (10 * precision + (chr c - chr "0") <=? INT_MAX) eqn:Hsum;
      [|exact I].
    apply Z.leb_le in Hsum.
    apply holds_bind, holds_ret, holds_bind, holds_advance, IH;
      cbn [pos Params reads]; [lia|lia|].
    intros r s' HP Hp' Hr. apply HQ; [exact HP|lia|exact Hr].
  - apply holds_ret, HQ; simpl; [reflexivity|lia|exact Hprec].
Qed.

Lemma consumeWidth_effect fuel s (Q : unit -> scan -> Prop) :
  0 <= pos s <= extent fmt ->
  (forall w s',
      Params s' = Params s ++ entry_if w DYNAMIC_WIDTH ->
      pos s + Z.of_nat (List.length (entry_if w DYNAMIC_WIDTH)) <= pos s' ->
      pos s' <= extent fmt ->
      Q tt s') ->
  holds (consumeWidth fmt fuel) s Q any_fault.
Proof.
  intros Hpos HQ. unfold consumeWidth.
  apply holds_bind, fetch_inside; [lia|]. intros c _ Hlt.
  destruct (c =? "*")%char.
  - apply holds_bind, holds_push_back, holds_advance.
    apply (HQ true); simpl; [reflexivity|lia|lia].
  - apply consume_effect; simpl; [lia|].
    intros s' HP Hp'. apply (HQ false); simpl; [|lia|lia].
    rewrite HP. now rewrite app_nil_r.
Qed.

Lemma consumePrecisionField_effect fuel s (Q : bool * Z -> scan -> Prop) :
  0 <= pos s <= extent fmt ->
  (forall hp s',
      Params s' = Params s ++ entry_if (fst hp) DYNAMIC_PRECISION ->
      pos s + 2 * Z.of_nat (List.length (entry_if (fst hp) DYNAMIC_PRECISION))
      <= pos s' ->
      pos s' <= extent fmt ->
      -1 <= snd hp <= INT_MAX ->
      Q hp s') ->
  holds (consumePrecisionField fmt fuel) s Q any_fault.
Proof.
  intros Hpos HQ. unfold consumePrecisionField.
  assert (HI : -1 <= -1 <= INT_MAX) by (unfold INT_MAX; lia).
  apply holds_bind, fetch_inside; [lia|]. intros c _ Hlt.
  destruct (c =? ".")%char.
  - apply holds_bind, holds_advance, holds_bind, fetch_inside;
      [simpl; lia|]. simpl.
    intros c' _ Hlt'. destruct (c' =? "*")%char.
    + apply holds_bind, holds_push_back, holds_bind, holds_advance.
      apply holds_ret. apply (HQ (true, -1)); simpl; [reflexivity|lia|lia|].
      exact HI.
    + apply holds_bind, consumePrecision_effect;
        [simpl; lia|unfold INT_MAX; lia|]. simpl.
      intros r s' HP Hp' Hr. apply holds_ret.
      apply (HQ (false, r)); simpl; [|lia|lia|lia].
      rewrite HP. now rewrite app_nil_r.
  - apply holds_ret. apply (HQ (false, -1)); simpl; [|lia|lia|exact HI].
    now rewrite app_nil_r.
Qed.

Lemma pushed_closing h precision c :
  -1 <= precision <= INT_MAX ->
  closing h (pushed h precision c)
  /\ (List.length (pushed h precision c) <= 2)%nat.
Proof.
  intros Hp. unfold pushed, closing.
  destruct (c =? "n")%char eqn:Hn.
  { apply Ascii.eqb_eq in Hn. subst c. simpl. split; [now left|lia]. }
  destruct (c =? "s")%char eqn:Hs.
  - apply Ascii.eqb_eq in Hs. subst c. simpl.
    destruct h; [split; [|lia]; right; right; left; now split|].
    destruct (precision =? -1) eqn:He.
    + split; [|lia]. right; right; right; left. now split.
    + apply Z.eqb_neq in He. split; [|lia].
      do 4 right. split; [reflexivity|].
      exists precision. split; [lia|reflexivity].
  - destruct (negb (isTerminal c)); simpl; (split; [|lia]);
      [now left|right; now left].
Qed.

Lemma consumeTerminal_effect h precision s (Q : unit -> scan -> Prop) :
  0 <= pos s <= extent fmt ->
  -1 <= precision <= INT_MAX ->
  (forall last s',
      closing h last -> (List.length last <= 2)%nat ->
      Params s' = Params s ++ last ->
      pos s' = pos s + 1 -> pos s' <= extent fmt ->
      Q tt s') ->
  holds (consumeTerminal fmt h precision) s Q any_fault.
Proof.
  intros Hpos Hp HQ. apply consumeTerminal_pushed. intros c Hc.
  destruct (pushed_closing h precision c Hp) as [Hcl Hlen].
  apply (HQ (pushed h precision c)); simpl; auto.
  assert (Z.to_nat (pos s) < List.length fmt)%nat
    by (apply nth_error_Some; rewrite Hc; discriminate).
  unfold extent. lia.
Qed.

Lemma specifier_effect fuel s (Q : unit -> scan -> Prop) :
  0 <= pos s <= extent fmt ->
  (forall g s',
      group g -> Params s' = Params s ++ g ->
      pos s + Z.of_nat (List.length g) <= pos s' + 1 ->
      pos s < pos s' <= extent fmt ->
      Q tt s') ->
  holds (specifier fmt fuel) s Q any_fault.
Proof.
  intros Hpos HQ. unfold specifier.
  apply holds_bind, consume_effect; [lia|]. intros s1 HP1 Hp1.
  apply holds_bind, consumeWidth_effect; [lia|]. intros w s2 HP2 Hp2 He2.
  apply holds_bind, consumePrecisionField_effect; [lia|].
  intros [h precision] s3 HP3 Hp3 He3 Hprec. cbn [fst snd] in *.
  apply holds_bind, consume_effect; [lia|]. intros s4 HP4 Hp4.
  apply consumeTerminal_effect; [lia|exact Hprec|].
  intros last s5 Hcl Hlen HP5 Hp5 He5.
  apply (HQ (entry_if w DYNAMIC_WIDTH
             ++ entry_if h DYNAMIC_PRECISION ++ last)).
  - now constructor.
  - rewrite HP5, HP4, HP3, HP2, HP1. now rewrite <- !app_assoc.
  - rewrite !length_app. lia.
  - lia.
Qed.

Lemma iteration_effect fuel s (Q : unit -> scan -> Prop) :
  0 <= pos s <= extent fmt ->
  (forall g s',
      g = [] \/ group g -> Params s' = Params s ++ g ->
      pos s + Z.of_nat (List.length g) <= pos s' ->
      pos s < pos s' <= extent fmt ->
      Q tt s') ->
  holds (iteration fmt fuel) s Q any_fault.
Proof.
  intros Hpos HQ. unfold iteration.
  apply holds_bind, fetch_inside; [lia|]. intros c _ Hlt.
  destruct (negb (c =? "%")%char).
  - apply holds_advance. apply (HQ []); simpl; auto; try lia.
    now rewrite app_nil_r.
  - apply holds_bind, holds_advance, holds_bind, fetch_inside;
      [simpl; lia|]. simpl.
    intros c' _ Hlt'. destruct (c' =? "%")%char.
    + apply holds_advance. apply (HQ []); simpl; auto; try lia.
      now rewrite app_nil_r.
    + apply specifier_effect; simpl; [lia|].
      intros g s' Hg HP Hlen Hp'. apply (HQ g); auto; lia.
Qed.

Lemma grouped_extend s s' g :
  grouped fmt s ->
  g = [] \/ group g -> Params s' = Params s ++ g ->
  pos s + Z.of_nat (List.length g) <= pos s' ->
  pos s < pos s' <= extent fmt ->
  grouped fmt s'.
Proof.
  intros [[gs [HP HF]] [Hlen Hpos]] Hg HP' Hadv Hp'.
  split; [|split; [|lia]].
  - destruct Hg as [->|Hg].
    + exists gs. rewrite HP', app_nil_r. auto.
    + exists (gs ++ [g]). split.
      * rewrite HP', HP, concat_app. simpl. now rewrite app_nil_r.
      * apply Forall_app. auto.
  - rewrite HP', length_app. lia.
Qed.

Lemma scanLoop_effect N fuel loops :
  forall s, grouped fmt s ->
    holds (scanLoop fmt N fuel loops) s
          (fun _ s' => grouped fmt s') any_fault.
Proof.
  induction loops as [|loops IH]; intros s Hg; [exact I|].
  cbn [scanLoop]. apply holds_bind, holds_get_pos.
  destruct (pos s <? N - 1).
  - apply holds_bind, iteration_effect; [destruct Hg as [_ [_ Hp]]; lia|].
    intros g s' Hgr HP Hadv Hp'. apply IH.
    exact (grouped_extend s s' g Hg Hgr HP Hadv Hp').
  - apply holds_ret. exact Hg.
Qed.

End Effects.

Lemma grouped_scan0 fmt : grouped fmt scan0.
Proof.
  split; [|split].
  - exists []. split; [reflexivity|constructor].
  - simpl. lia.
  - simpl. unfold extent. lia.
Qed.

(** A run that returns ends in a grouped state. *)
Lemma run_getParamInfo_grouped fmt N ps :
  getParamInfo fmt N = inr ps ->
  exists s, grouped fmt s /\ Params s = ps.
Proof.
  unfold getParamInfo, run_getParamInfo. intros Hrun.
  pose proof (scanLoop_effect fmt N (S (List.length fmt)) (S (Z.to_nat N))
                scan0 (grouped_scan0 fmt)) as Hg.
  unfold holds in Hg.
  destruct (scanLoop fmt N (S (List.length fmt)) (S (Z.to_nat N)) scan0)
    as [u s'|f s']; [|discriminate].
  injection Hrun as <-. eauto.
Qed.

(* ================================================================== *)
(** ** Consequences of the grouping *)





















(** X5: the classifier returns at most as many entries as the array has
    characters: for a C string of length [N], at most [N + 1]. *)
Theorem getParamInfo_count (s : string) ps :
  getParamInfo (c_str s) (strlen s) = inr ps ->
  Z.of_nat (List.length ps) <= strlen s + 1.
Proof.
  intros Hrun. destruct (run_getParamInfo_grouped _ _ ps Hrun)
    as [st [[_ [Hlen Hpos]] <-]].
  unfold extent, c_str, strlen in *.
  rewrite length_app, length_list_ascii_of_string in Hpos.
  simpl in Hpos. lia.
Qed.

Lemma getParamInfo_count_witness :
  Z.of_nat (List.length [DYNAMIC_WIDTH; INVALID; NON_STRING])
  <= strlen "%*" + 1.
Proof.
  apply (getParamInfo_count "%*" [DYNAMIC_WIDTH; INVALID; NON_STRING]).
  reflexivity.
Defined.

(* ================================================================== *)
(** ** More iterations change nothing *)

Lemma more_refl {A} (m : M A) : more m m.
Proof. intros s _. reflexivity. Qed.

Lemma more_bind {A B} (m m' : M A) (k k' : A -> M B) :
  more m m' -> (forall a, more (k a) (k' a)) ->
  more (bind m k) (bind m' k').
Proof.
  intros Hm Hk s Hok. unfold bind in *.
  specialize (Hm s). destruct (m s) as [a s'|f s'].
  - rewrite (Hm I). now apply Hk.
  - now rewrite (Hm Hok).
Qed.

Section MoreFuel.

Variable fmt : list ascii.

Lemma consume_more p :
  forall f f', (f <= f')%nat -> more (consume fmt p f) (consume fmt p f').
Proof.
  induction f as [|f IH]; intros f' Hle.
  - intros s Hok. contradiction.
  - destruct f' as [|f']; [lia|]. cbn [consume].
    apply more_bind; [apply more_refl|]. intros c.
    destruct (p c); [|apply more_refl].
    apply more_bind; [apply more_refl|]. intros _. apply IH. lia.
Qed.

Lemma consumePrecision_more :
  forall f f' precision, (f <= f')%nat ->
    more (consumePrecision fmt f precision)
         (consumePrecision fmt f' precision).
Proof.
  induction f as [|f IH]; intros f' precision Hle.
  - intros s Hok. contradiction.
  - destruct f' as [|f']; [lia|]. cbn [consumePrecision].
    apply more_bind; [apply more_refl|]. intros c.
    destruct (isDigit c); [|apply more_refl].
    repeat (apply more_bind; [apply more_refl|]; intros ?).
    apply IH. lia.
Qed.

Lemma consumeWidth_more f f' :
  (f <= f')%nat -> more (consumeWidth fmt f) (consumeWidth fmt f').
Proof.
  intros Hle. unfold consumeWidth.
  apply more_bind; [apply more_refl|]. intros c.
  destruct (c =? "*")%char; [apply more_refl|now apply consume_more].
Qed.

Lemma consumePrecisionField_more f f' :
  (f <= f')%nat ->
  more (consumePrecisionField fmt f) (consumePrecisionField fmt f').
Proof.
  intros Hle. unfold consumePrecisionField.
  apply more_bind; [apply more_refl|]. intros c.
  destruct (c =? ".")%char; [|apply more_refl].
  apply more_bind; [apply more_refl|]. intros _.
  apply more_bind; [apply more_refl|]. intros c'.
  destruct (c' =? "*")%char; [apply more_refl|].
  apply more_bind; [now apply consumePrecision_more|].
  intros r. apply more_refl.
Qed.

Lemma specifier_more f f' :
  (f <= f')%nat -> more (specifier fmt f) (specifier fmt f').
Proof.
  intros Hle. unfold specifier.
  apply more_bind; [now apply consume_more|]. intros _.
  apply more_bind; [now apply consumeWidth_more|]. intros _.
  apply more_bind; [now apply consumePrecisionField_more|]. intros hp.
  apply more_bind; [now apply consume_more|]. intros _.
  apply more_refl.
Qed.

Lemma iteration_more f f' :
  (f <= f')%nat -> more (iteration fmt f) (iteration fmt f').
Proof.
  intros Hle. unfold iteration.
  apply more_bind; [apply more_refl|]. intros c.
  destruct (negb (c =? "%")%char); [apply more_refl|].
  apply more_bind; [apply more_refl|]. intros _.
  apply more_bind; [apply more_refl|]. intros c'.
  destruct (c' =? "%")%char; [apply more_refl|now apply specifier_more].
Qed.

Lemma scanLoop_more N f f' :
  (f <= f')%nat ->
  forall l l', (l <= l')%nat ->
    more (scanLoop fmt N f l) (scanLoop fmt N f' l').
Proof.
  intros Hle. induction l as [|l IH]; intros l' Hl.
  - intros s Hok. contradiction.
  - destruct l' as [|l']; [lia|]. cbn [scanLoop].
    apply more_bind; [apply more_refl|]. intros p.
    destruct (p <? N - 1); [|apply more_refl].
    apply more_bind; [now apply iteration_more|]. intros _.
    apply IH. lia.
Qed.

End MoreFuel.

(* ================================================================== *)
(** ** A scan of a suffix, seen from the whole string *)

Lemma simulates_ret {A} d chunk (a : A) : simulates d chunk (ret a) (ret a).
Proof. intros s1 s2 Hs. simpl. auto. Qed.

Lemma simulates_bind {A B} d chunk (m1 m2 : M A) (k1 k2 : A -> M B) :
  simulates d chunk m1 m2 ->
  (forall a, simulates d chunk (k1 a) (k2 a)) ->
  simulates d chunk (bind m1 k1) (bind m2 k2).
Proof.
  intros Hm Hk s1 s2 Hs. specialize (Hm s1 s2 Hs).
  unfold bind, matching in *.
  destruct (m1 s1) as [a1 t1|f1 t1], (m2 s2) as [a2 t2|f2 t2];
    try contradiction; [|exact Hm].
  destruct Hm as [<- Ht]. exact (Hk a1 t1 t2 Ht).
Qed.

Lemma simulates_advance d chunk : simulates d chunk advance advance.
Proof.
  intros s1 s2 [Hp [HP H0]]. simpl. split; [reflexivity|].
  split; simpl; [lia|auto with zarith].
Qed.

Lemma simulates_push_back d chunk p :
  simulates d chunk (push_back p) (push_back p).
Proof.
  intros s1 s2 [Hp [HP H0]]. simpl. split; [reflexivity|].
  split; simpl; [lia|]. split; [|lia].
  rewrite HP. now rewrite app_assoc.
Qed.

Lemma simulates_int_result d chunk v :
  simulates d chunk (int_result v) (int_result v).
Proof.
  intros s1 s2 Hs. unfold int_result.
  destruct (v <=? INT_MAX); simpl; auto.
Qed.

Section Shift.

Variables fmt1 fmt2 : list ascii.
Variable d : Z.
Variable chunk : list ParamType.
Hypothesis d_nonneg : 0 <= d.
Hypothesis window :
  forall i, 0 <= i ->
    nth_error fmt1 (Z.to_nat (i + d)) = nth_error fmt2 (Z.to_nat i).

Lemma simulates_fetch : simulates d chunk (fetch fmt1) (fetch fmt2).
Proof.
  intros s1 s2 [Hp [HP H0]]. unfold fetch.
  destruct (pos s1 <? 0) eqn:H1; [lia|].
  destruct (pos s2 <? 0) eqn:H2; [lia|].
  rewrite Hp, (window (pos s2) H0).
  destruct (nth_error fmt2 (Z.to_nat (pos s2))); simpl; [|reflexivity].
  split; [reflexivity|]. split; simpl; auto.
Qed.

Lemma simulates_consume p fuel :
  simulates d chunk (consume fmt1 p fuel) (consume fmt2 p fuel).
Proof.
  induction fuel as [|fuel IH].
  - intros s1 s2 _. reflexivity.
  - cbn [consume]. apply simulates_bind; [apply simulates_fetch|].
    intros c. destruct (p c); [|apply simulates_ret].
    apply simulates_bind; [apply simulates_advance|]. intros _. exact IH.
Qed.

Lemma simulates_consumePrecision fuel :
  forall precision,
    simulates d chunk (consumePrecision fmt1 fuel precision)
              (consumePrecision fmt2 fuel precision).
Proof.
  induction fuel as [|fuel IH]; intros precision.
  - intros s1 s2 _. reflexivity.
  - cbn [consumePrecision]. apply simulates_bind; [apply simulates_fetch|].
    intros c. destruct (isDigit c); [|apply simulates_ret].
    apply simulates_bind; [apply simulates_fetch|]. intros c'.
    apply simulates_bind; [apply simulates_int_result|]. intros t.
    apply simulates_bind; [apply simulates_int_result|]. intros precision'.
    apply simulates_bind; [apply simulates_advance|]. intros _.
    apply IH.
Qed.

Lemma simulates_consumeWidth fuel :
  simulates d chunk (consumeWidth fmt1 fuel) (consumeWidth fmt2 fuel).
Proof.
  unfold consumeWidth. apply simulates_bind; [apply simulates_fetch|].
  intros c. destruct (c =? "*")%char; [|apply simulates_consume].
  apply simulates_bind; [apply simulates_push_back|]. intros _.
  apply simulates_advance.
Qed.

Lemma simulates_consumePrecisionField fuel :
  simulates d chunk (consumePrecisionField fmt1 fuel)
            (consumePrecisionField fmt2 fuel).
Proof.
  unfold consumePrecisionField.
  apply simulates_bind; [apply simulates_fetch|]. intros c.
  destruct (c =? ".")%char; [|apply simulates_ret].
  apply simulates_bind; [apply simulates_advance|]. intros _.
  apply simulates_bind; [apply simulates_fetch|]. intros c'.
  destruct (c' =? "*")%char.
  - apply simulates_bind; [apply simulates_push_back|]. intros _.
    apply simulates_bind; [apply simulates_advance|]. intros _.
    apply simulates_ret.
  - apply simulates_bind; [apply simulates_consumePrecision|]. intros r.
    apply simulates_ret.
Qed.

Lemma simulates_consumeTerminal h precision :
  simulates d chunk (consumeTerminal fmt1 h precision)
            (consumeTerminal fmt2 h precision).
Proof.
  unfold consumeTerminal.
  apply simulates_bind; [apply simulates_fetch|]. intros c1.
  apply simulates_bind.
  { destruct (negb (isTerminal c1));
      [apply simulates_push_back|apply simulates_ret]. }
  intros _. apply simulates_bind; [apply simulates_fetch|]. intros c2.
  apply simulates_bind.
  { destruct (c2 =? "n")%char;
      [apply simulates_push_back|apply simulates_ret]. }
  intros _. apply simulates_bind; [apply simulates_fetch|]. intros c3.
  apply simulates_bind; [|intros _; apply simulates_advance].
  destruct (negb (c3 =? "s")%char); [apply simulates_push_back|].
  destruct h; [apply simulates_push_back|].
  destruct (precision =? -1); apply simulates_push_back.
Qed.

Lemma simulates_specifier fuel :
  simulates d chunk (specifier fmt1 fuel) (specifier fmt2 fuel).
Proof.
  unfold specifier.
  apply simulates_bind; [apply simulates_consume|]. intros _.
  apply simulates_bind; [apply simulates_consumeWidth|]. intros _.
  apply simulates_bind; [apply simulates_consumePrecisionField|].
  intros hp.
  apply simulates_bind; [apply simulates_consume|]. intros _.
  apply simulates_consumeTerminal.
Qed.

Lemma simulates_iteration fuel :
  simulates d chunk (iteration fmt1 fuel) (iteration fmt2 fuel).
Proof.
  unfold iteration. apply simulates_bind; [apply simulates_fetch|].
  intros c. destruct (negb (c =? "%")%char); [apply simulates_advance|].
  apply simulates_bind; [apply simulates_advance|]. intros _.
  apply simulates_bind; [apply simulates_fetch|]. intros c'.
  destruct (c' =? "%")%char;
    [apply simulates_advance|apply simulates_specifier].
Qed.

Lemma simulates_scanLoop N fuel loops :
  simulates d chunk (scanLoop fmt1 (N + d) fuel loops)
            (scanLoop fmt2 N fuel loops).
Proof.
  induction loops as [|loops IH].
  - intros s1 s2 _. reflexivity.
  - cbn [scanLoop]. intros s1 s2 Hs. unfold bind at 1 3, get_pos.
    destruct Hs as [Hp [HP H0]].
    replace (pos s1 <? N + d - 1) with (pos s2 <? N - 1)
      by (rewrite Hp; destruct (Z.ltb_spec (pos s2) (N - 1)),
            (Z.ltb_spec (pos s2 + d) (N + d - 1)); auto; lia).
    destruct (pos s2 <? N - 1).
    + apply simulates_bind;
        [apply simulates_iteration|intros _; exact IH|].
      split; auto.
    + simpl. split; [reflexivity|]. split; auto.
Qed.

End Shift.

(* ================================================================== *)
(** ** The classification of a string from that of its suffix *)

Lemma c_array_window (p rest : list ascii) i :
  0 <= i ->
  nth_error (c_array (p ++ rest)) (Z.to_nat (i + Z.of_nat (List.length p)))
  = nth_error (c_array rest) (Z.to_nat i).
Proof.
  intros Hi. unfold c_array. rewrite <- app_assoc.
  rewrite nth_error_app2 by lia. f_equal. lia.
Qed.

Lemma c_array_terminator l :
  nth_error (c_array l) (Z.to_nat (Z.of_nat (List.length l))) = Some NUL.
Proof.
  unfold c_array. rewrite Nat2Z.id, nth_error_app2 by lia.
  now rewrite Nat.sub_diag.
Qed.

(** The run on a C string never stops for want of iterations. *)
Lemma run_c_array_fuelOK l :
  fuelOK (run_getParamInfo (c_array l) (Z.of_nat (List.length l))).
Proof.
  pose proof (run_getParamInfo_logged (c_array l)
                (Z.of_nat (List.length l)) (Z.of_nat (List.length l)) NUL
                (c_array_terminator l) eq_refl) as Hrun.
  unfold holds, run_getParamInfo in *.
  destruct (scanLoop (c_array l) (Z.of_nat (List.length l))
              (S (List.length (c_array l)))
              (S (Z.to_nat (Z.of_nat (List.length l)))) scan0)
    as [u s|f s]; [exact I|].
  destruct Hrun as [-> _]; [lia..|exact I].
Qed.

Lemma matching_outcome d chunk (r1 r2 : res unit) :
  matching d chunk r1 r2 -> outcome r1 = prepend chunk (outcome r2).
Proof.
  destruct r1 as [a1 t1|f1 t1], r2 as [a2 t2|f2 t2]; simpl;
    try contradiction.
  - intros [_ [_ [HP _]]]. now rewrite HP.
  - now intros ->.
Qed.

(** When the first iteration on [p ++ rest] passes exactly the
    characters [p] and pushes [chunk], the rest of the run is the run on
    [rest], with [chunk] in front. *)
Lemma getParamInfo_after_prefix (p rest : list ascii) chunk s1 :
  (1 <= List.length p)%nat ->
  (2 <= List.length p + List.length rest)%nat ->
  iteration (c_array (p ++ rest)) (S (List.length (c_array (p ++ rest))))
            scan0 = Ret tt s1 ->
  pos s1 = Z.of_nat (List.length p) ->
  Params s1 = chunk ->
  getParamInfo (c_array (p ++ rest)) (Z.of_nat (List.length (p ++ rest)))
  = prepend chunk
      (getParamInfo (c_array rest) (Z.of_nat (List.length rest))).
Proof.
  intros Hp Hlen Hiter Hpos HP.
  change (getParamInfo (c_array rest) (Z.of_nat (List.length rest)))
    with (outcome (run_getParamInfo (c_array rest)
                     (Z.of_nat (List.length rest)))).
  change (getParamInfo (c_array (p ++ rest))
            (Z.of_nat (List.length (p ++ rest))))
    with (outcome (run_getParamInfo (c_array (p ++ rest))
                     (Z.of_nat (List.length (p ++ rest))))).
  pose proof (run_c_array_fuelOK rest) as Hok.
  unfold run_getParamInfo in *.
  set (fmt1 := c_array (p ++ rest)) in *.
  set (fmt2 := c_array rest) in *.
  set (N2 := Z.of_nat (List.length rest)) in *.
  set (d := Z.of_nat (List.length p)) in *.
  assert (HN : Z.of_nat (List.length (p ++ rest)) = N2 + d)
    by (rewrite length_app; subst N2 d; lia).
  rewrite HN.
  remember (Z.to_nat (N2 + d)) as L eqn:HeqL.
  assert (HF : (S (List.length fmt2) <= S (List.length fmt1))%nat).
  { subst fmt1 fmt2. unfold c_array. rewrite !length_app. simpl. lia. }
  assert (HL : (S (Z.to_nat N2) <= L)%nat) by (subst L N2 d; lia).
  rewrite <- (scanLoop_more fmt2 N2 _ _ HF _ _ HL scan0 Hok).
  clear Hok.
  cbn [scanLoop]. unfold bind at 1, get_pos. cbn [pos scan0].
  replace (0 <? N2 + d - 1) with true
    by (symmetry; apply Z.ltb_lt; subst N2 d; lia).
  unfold bind at 1. rewrite Hiter.
  apply matching_outcome with (d := d).
  apply (simulates_scanLoop fmt1 fmt2 d chunk).
  - subst d. lia.
  - intros i Hi. now apply c_array_window.
  - split; [|split]; simpl; [lia|now rewrite app_nil_r|lia].
Qed.

Lemma prepend_nil r : prepend [] r = r.
Proof. destruct r; reflexivity. Qed.

(** Literal text in front of the characters [rest] does not change the
    classification. *)
Lemma classify_literal_prefix (t rest : list ascii) :
  literalText t ->
  getParamInfo (c_array (t ++ rest)) (Z.of_nat (List.length (t ++ rest)))
  = getParamInfo (c_array rest) (Z.of_nat (List.length rest)).
Proof.
  induction 1 as [|c t Hc Ht IH|t Ht IH].
  - reflexivity.
  - rewrite <- IH. clear IH.
    destruct (t ++ rest) as [|c' l] eqn:Hl.
    + change ((c :: t) ++ rest) with (c :: t ++ rest). rewrite Hl.
      reflexivity.
    + assert (Hlen : (1 <= List.length (t ++ rest))%nat)
        by (rewrite Hl; simpl; lia).
      rewrite <- Hl. clear Hl c' l.
      change ((c :: t) ++ rest) with ([c] ++ (t ++ rest)).
      rewrite <- (prepend_nil (getParamInfo (c_array (t ++ rest)) _)).
      apply (getParamInfo_after_prefix [c] (t ++ rest) []
               (mkScan 1 [] [0])); simpl; try lia; try reflexivity.
      apply (iteration_char _ _ scan0 c); simpl; [lia|reflexivity|exact Hc].
  - rewrite <- IH. clear IH.
    change (("%"%char :: "%"%char :: t) ++ rest)
      with (["%"%char; "%"%char] ++ (t ++ rest)).
    rewrite <- (prepend_nil (getParamInfo (c_array (t ++ rest)) _)).
    apply (getParamInfo_after_prefix ["%"%char; "%"%char] (t ++ rest) []
             (mkScan 2 [] [0; 1])); simpl; try lia; try reflexivity.
Qed.

(* ================================================================== *)
(** ** The character classes *)

(** X6: no conversion character is a flag, a digit, ['*'], ['.'] or a
    length modifier, so the scan of a specifier never steps over its
    conversion character; a length modifier is neither a flag nor a
    digit; and the only character that is both a flag and a digit is
    ['0']. *)
Theorem character_classes (c : ascii) :
  (isTerminal c = true -> consumable c = false)
  /\ (isLength c = true -> isFlag c = false /\ isDigit c = false)
  /\ (isFlag c = true -> isDigit c = true -> c = "0"%char)
  /\ (consumable c = true -> c <> "%"%char /\ c <> NUL).
Proof.
  destruct c as [[] [] [] [] [] [] [] []]; vm_compute;
    repeat split; intros; congruence.
Qed.

Lemma character_classes_witness :
  consumable "s" = false
  /\ (isFlag "l" = false /\ isDigit "l" = false)
  /\ "0"%char = "0"%char
  /\ ("5"%char <> "%"%char /\ "5"%char <> NUL).
Proof.
  pose proof (character_classes "s") as Hs.
  pose proof (character_classes "l") as Hl.
  pose proof (character_classes "0") as H0.
  pose proof (character_classes "5") as H5.
  split; [apply (proj1 Hs); reflexivity|].
  split; [apply (proj1 (proj2 Hl)); reflexivity|].
  split; [apply (proj1 (proj2 (proj2 H0))); reflexivity|].
  apply (proj2 (proj2 (proj2 H5))); reflexivity.
Defined.

Lemma class_facts (c : ascii) :
  (isTerminal c = true ->
   isFlag c = false /\ isDigit c = false /\ (c =? "*")%char = false
   /\ (c =? ".")%char = false /\ isLength c = false)
  /\ (isLength c = true ->
      isFlag c = false /\ isDigit c = false /\ (c =? "*")%char = false
      /\ (c =? ".")%char = false /\ (c =? "%")%char = false)
  /\ (isDigit c = true ->
      (c =? "*")%char = false /\ (c =? ".")%char = false
      /\ (c =? "%")%char = false)
  /\ (isFlag c = true ->
      (c =? "*")%char = false /\ (c =? "%")%char = false).
Proof.
  destruct c as [[] [] [] [] [] [] [] []]; vm_compute;
    repeat split; intros; congruence.
Qed.

Lemma terminal_facts c :
  isTerminal c = true ->
  isFlag c = false /\ isDigit c = false /\ (c =? "*")%char = false
  /\ (c =? ".")%char = false /\ isLength c = false.
Proof. apply (class_facts c). Qed.

Lemma length_facts c :
  isLength c = true ->
  isFlag c = false /\ isDigit c = false /\ (c =? "*")%char = false
  /\ (c =? ".")%char = false /\ (c =? "%")%char = false.
Proof. apply (class_facts c). Qed.

Lemma digit_facts c :
  isDigit c = true ->
  (c =? "*")%char = false /\ (c =? ".")%char = false
  /\ (c =? "%")%char = false.
Proof. apply (class_facts c). Qed.

Lemma terminal_not_consumable c :
  isTerminal c = true -> consumable c = false.
Proof.
  intros Hc. destruct (terminal_facts c Hc) as [Hf [Hd [Hs [Hdot Hl]]]].
  unfold consumable. now rewrite Hf, Hd, Hs, Hdot, Hl.
Qed.

Lemma not_consumable_facts c :
  consumable c = false ->
  isFlag c = false /\ isDigit c = false /\ (c =? "*")%char = false
  /\ (c =? ".")%char = false /\ isLength c = false.
Proof.
  unfold consumable. intros Hc.
  apply orb_false_elim in Hc. destruct Hc as [Hc Hl].
  apply orb_false_elim in Hc. destruct Hc as [Hc Hdot].
  apply orb_false_elim in Hc. destruct Hc as [Hc Hd].
  apply orb_false_elim in Hc. destruct Hc as [Hf Hs].
  auto.
Qed.

Lemma flag_facts c :
  isFlag c = true -> (c =? "*")%char = false /\ (c =? "%")%char = false.
Proof. apply (class_facts c). Qed.

(* ================================================================== *)
(** ** The scan of a well-formed specifier *)

Lemma headIs_cons (P : ascii -> Prop) c r : P c -> headIs P (c :: r).
Proof. intros HP. exists c, r. auto. Qed.

Lemma headIs_app (P : ascii -> Prop) a b :
  Forall P a -> headIs P b -> headIs P (a ++ b).
Proof.
  intros Ha Hb. destruct Ha as [|c a Hc _]; [exact Hb|].
  now apply headIs_cons.
Qed.

Lemma headIs_impl (P Q : ascii -> Prop) l :
  (forall c, P c -> Q c) -> headIs P l -> headIs Q l.
Proof. intros HPQ [c [r [-> Hc]]]. apply headIs_cons. auto. Qed.

Lemma digitsFrom_ge ds :
  Forall (fun c => isDigit c = true) ds ->
  forall acc, 0 <= acc -> acc <= digitsFrom acc ds.
Proof.
  unfold digitsFrom. induction 1 as [|d ds Hd _ IH]; intros acc Hacc.
  - cbn [fold_left]. lia.
  - cbn [fold_left]. pose proof (isDigit_value d Hd).
    specialize (IH (10 * acc + (chr d - chr "0")) ltac:(lia)). lia.
Qed.

Section Runs.

Variable fmt : list ascii.

Lemma fetch_split pre c rest s (Q : ascii -> scan -> Prop) E :
  fmt = pre ++ c :: rest ->
  pos s = Z.of_nat (List.length pre) ->
  Q c (mkScan (pos s) (Params s) (reads s ++ [pos s])) ->
  holds (fetch fmt) s Q E.
Proof.
  intros Hfmt Hpos HQ. unfold holds, fetch.
  destruct (pos s <? 0) eqn:Hneg; [lia|].
  replace (nth_error fmt (Z.to_nat (pos s))) with (Some c); [exact HQ|].
  now rewrite Hpos, Nat2Z.id, Hfmt, nth_error_middle.
Qed.

Lemma consume_run p :
  forall run pre rest fuel s (Q : unit -> scan -> Prop),
    fmt = pre ++ run ++ rest ->
    pos s = Z.of_nat (List.length pre) ->
    Forall (fun c => p c = true) run ->
    headIs (fun c => p c = false) rest ->
    (List.length run < fuel)%nat ->
    (forall s',
        pos s' = pos s + Z.of_nat (List.length run) ->
        Params s' = Params s -> Q tt s') ->
    holds (consume fmt p fuel) s Q no_fault.
Proof.
  induction run as [|r run IH]; intros pre rest fuel s Q Hfmt Hpos Hrun
    [c [rest' [-> Hc]]] Hfuel HQ;
    (destruct fuel as [|fuel]; [simpl in Hfuel; lia|]); cbn [consume].
  - apply holds_bind, (fetch_split pre c rest'); auto.
    rewrite Hc. apply holds_ret, HQ; simpl; [lia|reflexivity].
  - apply holds_bind, (fetch_split pre r (run ++ c :: rest')); auto.
    pose proof (Forall_inv Hrun) as Hr.
    pose proof (Forall_inv_tail Hrun) as Hrun'. cbv beta in Hr.
    rewrite Hr.
    apply holds_bind, holds_advance.
    apply (IH (pre ++ [r]) (c :: rest')).
    + rewrite Hfmt, <- app_assoc. reflexivity.
    + simpl. rewrite length_app. simpl. lia.
    + exact Hrun'.
    + now apply headIs_cons.
    + simpl in Hfuel. lia.
    + cbn [pos Params reads]. intros s' Hp' HP'.
      apply HQ; [|exact HP']. rewrite Hp'. cbn [List.length]. lia.
Qed.

Lemma consumePrecision_run :
  forall run pre rest fuel s acc (Q : Z -> scan -> Prop),
    fmt = pre ++ run ++ rest ->
    pos s = Z.of_nat (List.length pre) ->
    Forall (fun c => isDigit c = true) run ->
    headIs (fun c => isDigit c = false) rest ->
    (List.length run < fuel)%nat ->
    0 <= acc -> digitsFrom acc run <= INT_MAX ->
    (forall s',
        pos s' = pos s + Z.of_nat (List.length run) ->
        Params s' = Params s -> Q (digitsFrom acc run) s') ->
    holds (consumePrecision fmt fuel acc) s Q no_fault.
Proof.
  induction run as [|r run IH]; intros pre rest fuel s acc Q Hfmt Hpos Hrun
    [c [rest' [-> Hc]]] Hfuel Hacc Hmax HQ;
    (destruct fuel as [|fuel]; [simpl in Hfuel; lia|]);
    cbn [consumePrecision].
  - apply holds_bind, (fetch_split pre c rest'); auto.
    rewrite Hc. apply holds_ret, HQ; simpl; [lia|reflexivity].
  - apply holds_bind, (fetch_split pre r (run ++ c :: rest')); auto.
    pose proof (Forall_inv Hrun) as Hr.
    pose proof (Forall_inv_tail Hrun) as Hrun'. cbv beta in Hr.
    rewrite Hr.
    apply holds_bind, (fetch_split pre r (run ++ c :: rest')); auto.
    pose proof (isDigit_value r Hr) as Hv.
    change (digitsFrom acc (r :: run))
      with (digitsFrom (10 * acc + (chr r - chr "0")) run) in *.
    pose proof (digitsFrom_ge run Hrun' (10 * acc + (chr r - chr "0"))
                  ltac:(lia)) as Hge.
    unfold int_result.
    replace (10 * acc <=? INT_MAX) with true
      by (symmetry; apply Z.leb_le; lia).
    apply holds_bind, holds_ret.
    replace (10 * acc + (chr r - chr "0") <=? INT_MAX) with true
      by (symmetry; apply Z.leb_le; lia).
    apply holds_bind, holds_ret, holds_bind, holds_advance.
    apply (IH (pre ++ [r]) (c :: rest')).
    + rewrite Hfmt, <- app_assoc. reflexivity.
    + simpl. rewrite length_app. simpl. lia.
    + exact Hrun'.
    + now apply headIs_cons.
    + simpl in Hfuel. lia.
    + lia.
    + exact Hmax.
    + cbn [pos Params reads]. intros s' Hp' HP'.
      apply HQ; [|exact HP']. rewrite Hp'. cbn [List.length]. lia.
Qed.

Lemma consumeTerminal_holds pre c rest h precision s
    (Q : unit -> scan -> Prop) E :
  fmt = pre ++ c :: rest ->
  pos s = Z.of_nat (List.length pre) ->
  (forall s',
      pos s' = pos s + 1 -> Params s' = Params s ++ pushed h precision c ->
      Q tt s') ->
  holds (consumeTerminal fmt h precision) s Q E.
Proof.
  intros Hfmt Hpos HQ. unfold holds.
  rewrite (consumeTerminal_run fmt h precision s c); [|lia|].
  - apply HQ; reflexivity.
  - now rewrite Hpos, Nat2Z.id, Hfmt, nth_error_middle.
Qed.

(** The width when it is a run of digits, possibly empty. *)
Lemma consumeWidth_digits_run ds pre rest fuel s (Q : unit -> scan -> Prop) :
  fmt = pre ++ ds ++ rest ->
  pos s = Z.of_nat (List.length pre) ->
  Forall (fun c => isDigit c = true) ds ->
  headIs (fun c => isDigit c = false /\ (c =? "*")%char = false) rest ->
  (List.length ds < fuel)%nat ->
  (forall s',
      pos s' = pos s + Z.of_nat (List.length ds) ->
      Params s' = Params s -> Q tt s') ->
  holds (consumeWidth fmt fuel) s Q no_fault.
Proof.
  intros Hfmt Hpos Hds Hrest Hfuel HQ. unfold consumeWidth.
  assert (Hhead : headIs (fun c => (c =? "*")%char = false) (ds ++ rest)).
  { apply headIs_app.
    - eapply Forall_impl; [|exact Hds]. intros c Hc.
      now apply digit_facts.
    - eapply headIs_impl; [|exact Hrest]. now intros c [_ Hc]. }
  destruct Hhead as [c0 [r0 [Heq Hc0]]].
  apply holds_bind, (fetch_split pre c0 r0); [now rewrite Hfmt, Heq|auto|].
  rewrite Hc0.
  apply (consume_run isDigit ds pre rest); auto.
  eapply headIs_impl; [|exact Hrest]. now intros c [Hc _].
Qed.

Lemma flag_split ds :
  Forall (fun c => isDigit c = true) ds ->
  exists z ds',
    ds = z ++ ds'
    /\ Forall (fun c => isFlag c = true) z
    /\ Forall (fun c => isDigit c = true) ds'
    /\ (ds' = [] \/ headIs (fun c => isFlag c = false) ds').
Proof.
  induction 1 as [|d ds Hd Hds IH].
  - exists [], []. auto.
  - destruct (isFlag d) eqn:Hf.
    + destruct IH as [z [ds' [-> [Hz [Hds' Hhead]]]]].
      exists (d :: z), ds'. auto.
    + exists [], (d :: ds). repeat split; auto.
      right. now apply headIs_cons.
Qed.

(** Flags, then the width. *)
Lemma flags_width_run {B} flags w pre rest fuel s (k : M B)
    (Q : B -> scan -> Prop) :
  fmt = pre ++ flags ++ widthText w ++ rest ->
  pos s = Z.of_nat (List.length pre) ->
  Forall (fun c => isFlag c = true) flags ->
  fieldOK w ->
  headIs (fun c => isFlag c = false /\ isDigit c = false
                   /\ (c =? "*")%char = false) rest ->
  (List.length fmt < fuel)%nat ->
  (forall s',
      pos s' = pos s + Z.of_nat (List.length (flags ++ widthText w)) ->
      Params s' = Params s ++ entry_if (isStar w) DYNAMIC_WIDTH ->
      holds k s' Q no_fault) ->
  holds (bind (consume fmt isFlag fuel)
              (fun _ => bind (consumeWidth fmt fuel) (fun _ => k)))
        s Q no_fault.
Proof.
  intros Hfmt Hpos Hflags Hw Hrest Hfuel HQ.
  pose proof (f_equal (@List.length ascii) Hfmt) as Hlen.
  rewrite !length_app in Hlen.
  assert (Hrest_flag : headIs (fun c => isFlag c = false) rest)
    by (eapply headIs_impl; [|exact Hrest]; now intros c [Hc _]).
  assert (Hrest_digit :
            headIs (fun c => isDigit c = false /\ (c =? "*")%char = false)
                   rest)
    by (eapply headIs_impl; [|exact Hrest]; now intros c [_ Hc]).
  destruct w as [| |ds]; cbn [widthText isStar entry_if] in *.
  - (* no width *)
    apply holds_bind, (consume_run isFlag flags pre rest); auto; [lia|].
    intros s1 Hp1 HP1. apply holds_bind.
    apply (consumeWidth_digits_run [] (pre ++ flags) rest); auto.
    + now rewrite <- app_assoc.
    + rewrite length_app. lia.
    + simpl. lia.
    + intros s2 Hp2 HP2. apply HQ.
      * rewrite Hp2, Hp1, app_nil_r. simpl. lia.
      * rewrite HP2, HP1. now rewrite app_nil_r.
  - (* '*' *)
    apply holds_bind, (consume_run isFlag flags pre ("*"%char :: rest));
      auto; [now apply headIs_cons|lia|].
    intros s1 Hp1 HP1. apply holds_bind. unfold consumeWidth.
    apply holds_bind, (fetch_split (pre ++ flags) "*"%char rest);
      [now rewrite <- app_assoc|rewrite length_app; lia|].
    cbn [Ascii.eqb Bool.eqb andb].
    apply holds_bind, holds_push_back, holds_advance. cbn [pos Params reads].
    apply HQ; cbn [pos Params reads].
    + rewrite Hp1, length_app. simpl. lia.
    + now rewrite HP1.
  - (* digits *)
    destruct (flag_split ds Hw) as [z [ds' [-> [Hz [Hds' Hhead]]]]].
    rewrite length_app in Hlen.
    apply holds_bind,
      (consume_run isFlag (flags ++ z) pre (ds' ++ rest)).
    + rewrite Hfmt. now rewrite <- !app_assoc.
    + exact Hpos.
    + apply Forall_app. auto.
    + destruct Hhead as [->|Hhead]; [exact Hrest_flag|].
      destruct Hhead as [c [r [-> Hc]]]. now apply headIs_cons.
    + rewrite length_app. lia.
    + intros s1 Hp1 HP1. apply holds_bind.
      apply (consumeWidth_digits_run ds' (pre ++ flags ++ z) rest); auto.
      * rewrite Hfmt. now rewrite <- !app_assoc.
      * rewrite Hp1, Hpos, !length_app. lia.
      * lia.
      * intros s2 Hp2 HP2. apply HQ.
        -- rewrite Hp2, Hp1, !length_app. lia.
        -- rewrite HP2, HP1. now rewrite app_nil_r.
Qed.

(** The precision field. *)
Lemma precisionField_run p pre rest fuel s (Q : bool * Z -> scan -> Prop) :
  fmt = pre ++ precisionText p ++ rest ->
  pos s = Z.of_nat (List.length pre) ->
  fieldOK p ->
  precisionValue p <= INT_MAX ->
  headIs (fun c => isDigit c = false /\ (c =? ".")%char = false
                   /\ (c =? "*")%char = false) rest ->
  (List.length fmt < fuel)%nat ->
  (forall s',
      pos s' = pos s + Z.of_nat (List.length (precisionText p)) ->
      Params s' = Params s ++ entry_if (isStar p) DYNAMIC_PRECISION ->
      Q (isStar p, precisionValue p) s') ->
  holds (consumePrecisionField fmt fuel) s Q no_fault.
Proof.
  intros Hfmt Hpos Hp Hmax Hrest Hfuel HQ.
  pose proof (f_equal (@List.length ascii) Hfmt) as Hlen.
  rewrite !length_app in Hlen.
  unfold consumePrecisionField.
  destruct p as [| |ds];
    cbn [precisionText isStar entry_if precisionValue fieldOK] in *.
  - (* no precision *)
    destruct Hrest as [c [r [-> [_ [Hdot _]]]]].
    apply holds_bind, (fetch_split pre c r); auto.
    rewrite Hdot. apply holds_ret, HQ; cbn [pos Params reads]; [simpl; lia|].
    now rewrite app_nil_r.
  - (* ".*" *)
    apply holds_bind, (fetch_split pre "."%char ("*"%char :: rest)); auto.
    cbn [Ascii.eqb Bool.eqb andb].
    apply holds_bind, holds_advance, holds_bind,
      (fetch_split (pre ++ ["."%char]) "*"%char rest);
      [now rewrite <- app_assoc|cbn [pos]; rewrite length_app; simpl; lia|].
    cbn [Ascii.eqb Bool.eqb andb].
    apply holds_bind, holds_push_back, holds_bind, holds_advance.
    apply holds_ret, HQ; cbn [pos Params reads]; [simpl; lia|reflexivity].
  - (* '.' and digits *)
    apply holds_bind, (fetch_split pre "."%char (ds ++ rest)); auto.
    cbn [Ascii.eqb Bool.eqb andb].
    apply holds_bind, holds_advance.
    assert (Hhead : headIs (fun c => (c =? "*")%char = false) (ds ++ rest)).
    { apply headIs_app.
      - eapply Forall_impl; [|exact Hp]. intros c Hc.
        now apply digit_facts.
      - eapply headIs_impl; [|exact Hrest]. now intros c [_ [_ Hc]]. }
    destruct Hhead as [c0 [r0 [Heq Hc0]]].
    apply holds_bind, (fetch_split (pre ++ ["."%char]) c0 r0);
      [rewrite Hfmt, <- app_assoc; simpl; now rewrite Heq
      |cbn [pos]; rewrite length_app; simpl; lia|].
    rewrite Hc0.
    apply holds_bind,
      (consumePrecision_run ds (pre ++ ["."%char]) rest).
    + rewrite Hfmt, <- app_assoc. reflexivity.
    + cbn [pos]. rewrite length_app. simpl. lia.
    + exact Hp.
    + eapply headIs_impl; [|exact Hrest]. now intros c [Hc _].
    + simpl in Hlen. lia.
    + lia.
    + exact Hmax.
    + cbn [pos Params reads]. intros s' Hp' HP'.
      apply holds_ret, HQ; [|rewrite HP'; now rewrite app_nil_r].
      rewrite Hp'. simpl List.length. lia.
Qed.

End Runs.

Lemma digitsValue_nonneg ds :
  Forall (fun c => isDigit c = true) ds -> 0 <= digitsValue ds.
Proof. intros Hds. apply (digitsFrom_ge ds Hds 0). lia. Qed.

Lemma pushed_conversion p c :
  isTerminal c = true -> fieldOK p ->
  pushed (isStar p) (precisionValue p) c = conversionEntries p c.
Proof.
  intros Hc Hp. unfold pushed, conversionEntries. rewrite Hc. cbn [negb].
  destruct (c =? "n")%char eqn:Hn.
  { apply Ascii.eqb_eq in Hn. subst c. reflexivity. }
  destruct (c =? "s")%char; [|reflexivity].
  destruct p as [| |ds]; try reflexivity.
  cbn [isStar precisionValue negb List.app].
  pose proof (digitsValue_nonneg ds Hp) as Hv.
  replace (digitsValue ds =? -1) with false
    by (symmetry; apply Z.eqb_neq; lia).
  reflexivity.
Qed.

Section Specification.

Variables flags lens : list ascii.
Variables w p : field.
Variable c : ascii.
Variable tail : list ascii.
Hypothesis flags_ok : Forall (fun x => isFlag x = true) flags.
Hypothesis lens_ok : Forall (fun x => isLength x = true) lens.
Hypothesis w_ok : fieldOK w.
Hypothesis p_ok : fieldOK p.
Hypothesis c_stop : consumable c = false.

Lemma lens_head (P : ascii -> Prop) :
  (forall x, isLength x = true -> P x) -> P c ->
  headIs P (lens ++ c :: tail).
Proof.
  intros HL Hc. apply headIs_app; [|now apply headIs_cons].
  eapply Forall_impl; [|exact lens_ok]. exact HL.
Qed.

Lemma precision_head (P : ascii -> Prop) :
  P "."%char -> (forall x, isLength x = true -> P x) -> P c ->
  headIs P (precisionText p ++ lens ++ c :: tail).
Proof.
  intros Hdot HL Hc. destruct p; cbn [precisionText List.app].
  - now apply lens_head.
  - now apply headIs_cons.
  - now apply headIs_cons.
Qed.

(** The iteration that meets well-formed fields and then the character
    [c], which none of the loops steps over, passes them all and pushes
    the entries of the fields and of [c]. *)
Lemma fields_not_percent :
  Forall (fun x => (x =? "%")%char = false)
         (flags ++ widthText w ++ precisionText p ++ lens).
Proof.
  apply Forall_app; split; [|apply Forall_app; split;
                              [|apply Forall_app; split]].
  - eapply Forall_impl; [|exact flags_ok]. intros x Hx.
    now apply flag_facts.
  - destruct w as [| |ds]; cbn [widthText]; repeat constructor.
    eapply Forall_impl; [|exact w_ok]. intros x Hx. now apply digit_facts.
  - destruct p as [| |ds]; cbn [precisionText]; repeat constructor.
    eapply Forall_impl; [|exact p_ok]. intros x Hx. now apply digit_facts.
  - eapply Forall_impl; [|exact lens_ok]. intros x Hx.
    now apply length_facts.
Qed.

(** The character after the ['%'] is not another ['%'] when the
    specification has a field, or when [c] is not ['%']. *)
Lemma body_not_percent :
  flags ++ widthText w ++ precisionText p ++ lens <> [] \/ c <> "%"%char ->
  headIs (fun x => (x =? "%")%char = false)
         (flags ++ widthText w ++ precisionText p ++ lens ++ c :: tail).
Proof.
  intros Hbody.
  replace (flags ++ widthText w ++ precisionText p ++ lens ++ c :: tail)
    with ((flags ++ widthText w ++ precisionText p ++ lens) ++ c :: tail)
    by now rewrite <- !app_assoc.
  pose proof fields_not_percent as Hall.
  destruct (flags ++ widthText w ++ precisionText p ++ lens) as [|x body].
  - destruct Hbody as [Hbody|Hc]; [contradiction|].
    apply headIs_cons. now apply Ascii.eqb_neq.
  - apply headIs_cons. exact (Forall_inv Hall).
Qed.

Lemma iteration_specification fuel :
  flags ++ widthText w ++ precisionText p ++ lens <> [] \/ c <> "%"%char ->
  precisionValue p <= INT_MAX ->
  let fmt := "%"%char :: flags ++ widthText w ++ precisionText p
                          ++ lens ++ c :: tail in
  (List.length fmt < fuel)%nat ->
  exists s1,
    iteration fmt fuel scan0 = Ret tt s1
    /\ pos s1 = Z.of_nat (List.length (specifierText flags w p lens c))
    /\ Params s1
       = entry_if (isStar w) DYNAMIC_WIDTH
         ++ entry_if (isStar p) DYNAMIC_PRECISION
         ++ pushed (isStar p) (precisionValue p) c.
Proof.
  intros Hc Hmax fmt Hfuel.
  destruct (not_consumable_facts c c_stop)
    as [Htf [Htd [Hts [Htdot Htl]]]].
  enough (Hrun : holds (iteration fmt fuel) scan0
            (fun _ s1 =>
               pos s1
               = Z.of_nat (List.length (specifierText flags w p lens c))
               /\ Params s1
                  = entry_if (isStar w) DYNAMIC_WIDTH
                    ++ entry_if (isStar p) DYNAMIC_PRECISION
                    ++ pushed (isStar p) (precisionValue p) c) no_fault).
  { unfold holds in Hrun.
    destruct (iteration fmt fuel scan0) as [[] s1|f s1];
      [eauto|contradiction]. }
  unfold iteration.
  apply holds_bind, (fetch_split fmt [] "%"%char
    (flags ++ widthText w ++ precisionText p ++ lens ++ c :: tail));
    [reflexivity|reflexivity|].
  cbn [Ascii.eqb Bool.eqb andb negb].
  apply holds_bind, holds_advance. cbn [pos Params reads scan0].
  destruct (body_not_percent Hc) as [c1 [r1 [Heq Hc1]]].
  apply holds_bind, (fetch_split fmt ["%"%char] c1 r1);
    [subst fmt; now rewrite <- Heq|reflexivity|].
  rewrite Hc1. cbn [pos Params reads]. unfold specifier.
  apply (flags_width_run fmt flags w ["%"%char]
           (precisionText p ++ lens ++ c :: tail)); auto.
  { apply precision_head; auto.
    intros x Hx. destruct (length_facts x Hx) as [? [? [? _]]]. auto. }
  cbn [pos Params reads]. intros s2 Hp2 HP2.
  apply holds_bind,
    (precisionField_run fmt p (["%"%char] ++ flags ++ widthText w)
       (lens ++ c :: tail)); auto.
  { subst fmt. cbn [List.app]. now rewrite <- !app_assoc. }
  { rewrite Hp2, !length_app. simpl List.length. lia. }
  { apply lens_head; auto.
    intros x Hx. destruct (length_facts x Hx) as [? [? [? [? _]]]]. auto. }
  intros s3 Hp3 HP3. cbn [fst snd].
  apply holds_bind,
    (consume_run fmt isLength lens
       (["%"%char] ++ flags ++ widthText w ++ precisionText p)
       (c :: tail)); auto.
  { subst fmt. cbn [List.app]. now rewrite <- !app_assoc. }
  { rewrite Hp3, Hp2, !length_app. simpl List.length. lia. }
  { now apply headIs_cons. }
  { subst fmt. simpl List.length in Hfuel.
    rewrite !length_app in Hfuel. lia. }
  intros s4 Hp4 HP4.
  apply (consumeTerminal_holds fmt
           (["%"%char] ++ flags ++ widthText w ++ precisionText p ++ lens)
           c tail).
  { subst fmt. cbn [List.app]. now rewrite <- !app_assoc. }
  { rewrite Hp4, Hp3, Hp2, !length_app. simpl List.length. lia. }
  intros s5 Hp5 HP5. split.
  - rewrite Hp5, Hp4, Hp3, Hp2. unfold specifierText.
    simpl List.length. rewrite !length_app. simpl List.length. lia.
  - rewrite HP5, HP4, HP3, HP2. cbn [List.app].
    now rewrite <- app_assoc.
Qed.

End Specification.

Ltac prove_literal :=
  simpl;
  repeat first [ apply literal_end
               | apply literal_percent
               | apply literal_char; [discriminate|] ].

Ltac prove_specificationOK :=
  unfold specificationOK; simpl;
  repeat split; repeat constructor; try discriminate.

(** A well-formed specification in front of the characters [rest]
    contributes its entries, and [rest] classifies as on its own. *)
Lemma classify_fields flags w p lens c rest :
  Forall (fun x => isFlag x = true) flags ->
  fieldOK w -> fieldOK p ->
  Forall (fun x => isLength x = true) lens ->
  consumable c = false ->
  flags ++ widthText w ++ precisionText p ++ lens <> [] \/ c <> "%"%char ->
  precisionValue p <= INT_MAX ->
  getParamInfo (c_array (specifierText flags w p lens c ++ rest))
    (Z.of_nat (List.length (specifierText flags w p lens c ++ rest)))
  = prepend (entry_if (isStar w) DYNAMIC_WIDTH
             ++ entry_if (isStar p) DYNAMIC_PRECISION
             ++ pushed (isStar p) (precisionValue p) c)
      (getParamInfo (c_array rest) (Z.of_nat (List.length rest))).
Proof.
  intros Hf Hw Hp Hl Hc Hne Hmax.
  assert (Hfmt : c_array (specifierText flags w p lens c ++ rest)
                 = "%"%char :: flags ++ widthText w ++ precisionText p
                     ++ lens ++ c :: rest ++ [NUL]).
  { unfold c_array, specifierText. cbn [List.app].
    now rewrite <- !app_assoc. }
  destruct (iteration_specification flags lens w p c (rest ++ [NUL])
              Hf Hl Hw Hp Hc
              (S (List.length (c_array (specifierText flags w p lens c
                                         ++ rest))))
              Hne Hmax) as [s1 [Hiter [Hpos HP]]].
  { rewrite Hfmt. lia. }
  rewrite <- Hfmt in Hiter.
  apply (getParamInfo_after_prefix _ rest _ s1); auto.
  - unfold specifierText. simpl. lia.
  - unfold specifierText. simpl. rewrite !length_app. simpl. lia.
Qed.

(** A well-formed specification in front of the characters [rest]
    contributes its entries, and [rest] classifies as on its own. *)
Lemma classify_specification flags w p lens c rest :
  specificationOK flags w p lens c ->
  getParamInfo (c_array (specifierText flags w p lens c ++ rest))
    (Z.of_nat (List.length (specifierText flags w p lens c ++ rest)))
  = prepend (specificationEntries w p c)
      (getParamInfo (c_array rest) (Z.of_nat (List.length rest))).
Proof.
  intros [Hf [Hw [Hp [Hl [Hc [Hne Hmax]]]]]].
  rewrite (classify_fields flags w p lens c rest); auto.
  - unfold specificationEntries. now rewrite pushed_conversion.
  - now apply terminal_not_consumable.
Qed.

Lemma classify_format (xs : list piece) :
  Forall pieceOK xs ->
  getParamInfo (c_array (formatText xs))
    (Z.of_nat (List.length (formatText xs)))
  = inr (formatEntries xs).
Proof.
  induction 1 as [|x xs Hx _ IH].
  - reflexivity.
  - unfold formatText, formatEntries in *. cbn [map List.concat].
    destruct x as [t|flags w p lens c]; cbn [pieceText pieceEntries] in *.
    + rewrite (classify_literal_prefix t _ Hx). exact IH.
    + rewrite (classify_specification flags w p lens c _ Hx).
      rewrite IH. reflexivity.
Qed.

(* ================================================================== *)
(** ** The same, on C strings *)

Lemma list_ascii_of_string_append a b :
  list_ascii_of_string (a ++ b)
  = list_ascii_of_string a ++ list_ascii_of_string b.
Proof. induction a as [|c a IH]; simpl; [reflexivity|now rewrite IH]. Qed.

Lemma strlen_length s :
  strlen s = Z.of_nat (List.length (list_ascii_of_string s)).
Proof. unfold strlen. now rewrite length_list_ascii_of_string. Qed.

(** The classification of a C string, from its characters. *)
Lemma getParamInfo_c_str s :
  getParamInfo (c_str s) (strlen s)
  = getParamInfo (c_array (list_ascii_of_string s))
      (Z.of_nat (List.length (list_ascii_of_string s))).
Proof. now rewrite strlen_length. Qed.

(** X7: literal text in front of a format string (characters other than
    ['%'], and ["%%"] pairs) does not change its classification: the
    string [t ++ rest] classifies as [rest] does, to the same sequence
    or to the same fault. *)
Theorem getParamInfo_literal_prefix (t rest : string) :
  literalText (list_ascii_of_string t) ->
  getParamInfo (c_str (t ++ rest)) (strlen (t ++ rest))
  = getParamInfo (c_str rest) (strlen rest).
Proof.
  intros Ht. rewrite !getParamInfo_c_str, list_ascii_of_string_append.
  now apply classify_literal_prefix.
Qed.

Lemma getParamInfo_literal_prefix_witness :
  getParamInfo (c_str "50%% of %d items") (strlen "50%% of %d items")
  = getParamInfo (c_str "%d items") (strlen "%d items").
Proof.
  apply (getParamInfo_literal_prefix "50%% of " "%d items").
  prove_literal.
Defined.

(** X8: a format string whose only unpaired ['%'] is its last character
    classifies to the empty sequence: the trailing ['%'] is passed over
    without an entry. *)
Theorem getParamInfo_trailing_percent (t : string) :
  literalText (list_ascii_of_string t) ->
  getParamInfo (c_str (t ++ "%")) (strlen (t ++ "%")) = inr [].
Proof.
  intros Ht. rewrite getParamInfo_c_str, list_ascii_of_string_append.
  now rewrite classify_literal_prefix.
Qed.

Lemma getParamInfo_trailing_percent_witness :
  getParamInfo (c_str "100%") (strlen "100%") = inr [].
Proof.
  apply (getParamInfo_trailing_percent "100"). prove_literal.
Defined.

(** X9: a well-formed conversion specification at the head of a format
    string contributes the entries of printf's grammar -- one for a
    ['*'] width, one for a ['*'] precision, then those of the
    conversion -- and the rest of the string classifies as it does on
    its own: [spec ++ rest] gives the entries of [spec] followed by the
    sequence of [rest], or the fault of [rest]. *)
Theorem getParamInfo_specification flags w p lens c (rest : string) :
  specificationOK flags w p lens c ->
  getParamInfo
    (c_str (string_of_list_ascii (specifierText flags w p lens c) ++ rest))
    (strlen (string_of_list_ascii (specifierText flags w p lens c) ++ rest))
  = prepend (specificationEntries w p c)
      (getParamInfo (c_str rest) (strlen rest)).
Proof.
  intros Hok. rewrite !getParamInfo_c_str, list_ascii_of_string_append.
  rewrite list_ascii_of_string_of_list_ascii.
  now apply classify_specification.
Qed.

Lemma getParamInfo_specification_witness :
  getParamInfo (c_str "%-012.3ls and %d") (strlen "%-012.3ls and %d")
  = prepend [ParamType_of_int 3]
      (getParamInfo (c_str " and %d") (strlen " and %d")).
Proof.
  apply (getParamInfo_specification
           (list_ascii_of_string "-0")
           (Digits (list_ascii_of_string "12"))
           (Digits (list_ascii_of_string "3"))
           (list_ascii_of_string "l") "s" " and %d").
  prove_specificationOK.
Defined.

(** X10: a format string made of literal text and well-formed conversion
    specifications classifies to the entries of its specifications, in
    order. *)
Theorem getParamInfo_format (xs : list piece) :
  Forall pieceOK xs ->
  getParamInfo (c_str (string_of_list_ascii (formatText xs)))
    (strlen (string_of_list_ascii (formatText xs)))
  = inr (formatEntries xs).
Proof.
  intros Hxs. rewrite getParamInfo_c_str.
  rewrite list_ascii_of_string_of_list_ascii.
  now apply classify_format.
Qed.

Lemma getParamInfo_format_witness :
  getParamInfo (c_str "id=%5d name=%-*.*s 100%%")
    (strlen "id=%5d name=%-*.*s 100%%")
  = inr [NON_STRING; DYNAMIC_WIDTH; DYNAMIC_PRECISION;
         STRING_WITH_DYNAMIC_PRECISION].
Proof.
  apply (getParamInfo_format
           [Text (list_ascii_of_string "id=");
            Conversion [] (Digits (list_ascii_of_string "5")) Absent [] "d";
            Text (list_ascii_of_string " name=");
            Conversion (list_ascii_of_string "-") Star Star [] "s";
            Text (list_ascii_of_string " 100%%")]).
  repeat (apply Forall_cons; [cbn [pieceOK]|]); [| | | | |apply Forall_nil].
  - prove_literal.
  - prove_specificationOK.
  - prove_literal.
  - prove_specificationOK.
  - prove_literal.
Defined.



(* ================================================================== *)
(** ** Sizes of string arguments, in general *)

(** X12: for a narrow string whose parameter type is above
    [NON_STRING], the content length stored is the measured length cut
    down to the precision that applies (the fixed precision of a string
    type, the running precision under
    [STRING_WITH_DYNAMIC_PRECISION], none under
    [STRING_WITH_NO_PRECISION]); it never exceeds the measured length,
    the size returned is that length plus [sizeof(uint32_t)], and the
    running precision is not written. *)
Theorem getArgSize_narrow_string {platform : Platform}
    (fmtType : ParamType) (st : scratch) (str : string) :
  NON_STRING < fmtType <= INT_MAX ->
  0 <= previousPrecision st ->
  strlen str + sizeof_uint32_t < 2 ^ size_t_bits ->
  let count := truncatedCount fmtType st (strlen str) in
  getArgSize_char fmtType st str
  = (count + sizeof_uint32_t, mkScratch (previousPrecision st) count)
  /\ 0 <= count <= strlen str.
Proof.
  intros Ht Hp Hfit count.
  assert (Hlen : 0 <= strlen str) by (unfold strlen; lia).
  unfold sizeof_uint32_t in *.
  assert (Hm : 0 <= strlen str < 2 ^ size_t_bits) by lia.
  destruct (truncate_truncatedCount fmtType st (strlen str) Ht Hp Hm)
    as [Htr Hcount].
  fold count in Hcount, Htr. split; [|exact Hcount].
  unfold getArgSize_char.
  replace (fmtType <=? NON_STRING) with false
    by (symmetry; apply Z.leb_gt; lia).
  rewrite Htr.
  rewrite to_size_t_small by (unfold sizeof_uint32_t; lia).
  reflexivity.
Qed.

Lemma getArgSize_narrow_string_witness :
  getArgSize_char (platform := LP64) (ParamType_of_int 0) (mkScratch 9 9)
    "hello"
  = (0 + 4, mkScratch 9 0)
  /\ 0 <= 0 <= strlen "hello".
Proof.
  apply (getArgSize_narrow_string (platform := LP64) (ParamType_of_int 0)
           (mkScratch 9 9) "hello").
  - unfold NON_STRING, INT_MAX, ParamType_of_int. lia.
  - simpl. lia.
  - vm_compute. reflexivity.
Defined.

(** X13: an integer argument [v] sized under [DYNAMIC_PRECISION] and
    then a narrow string sized under [STRING_WITH_DYNAMIC_PRECISION]:
    the string's content length is the smaller of its measured length
    and [v] converted to [uint64_t], and its size that plus
    [sizeof(uint32_t)] -- whatever the two references held before. *)
Theorem dynamic_precision_truncation {platform : Platform}
    (bytes v : Z) (st : scratch) (str : string) :
  strlen str + sizeof_uint32_t < 2 ^ size_t_bits ->
  let r1 := getArgSize DYNAMIC_PRECISION st (mkInteger v : Integer bytes) in
  let r2 :=
    getArgSize_char STRING_WITH_DYNAMIC_PRECISION (snd r1) str in
  let count := Z.min (strlen str) (v mod 2 ^ 64) in
  fst r1 = bytes
  /\ r2 = (count + sizeof_uint32_t, mkScratch (v mod 2 ^ 64) count).
Proof.
  intros Hfit r1 r2 count. split; [reflexivity|].
  assert (Hv : 0 <= v mod 2 ^ 64 < 2 ^ 64) by (apply Z.mod_pos_bound; lia).
  subst r2 r1. unfold getArgSize. rewrite Z.eqb_refl.
  cbn [snd as_uint64_t Integer_Scalar value].
  destruct (getArgSize_narrow_string STRING_WITH_DYNAMIC_PRECISION
              (mkScratch (to_uint64_t v) (stringBytes st)) str)
    as [Hsize _].
  - unfold NON_STRING, STRING_WITH_DYNAMIC_PRECISION, INT_MAX. lia.
  - simpl. unfold to_uint64_t. lia.
  - exact Hfit.
  - rewrite Hsize. unfold truncatedCount, applicablePrecision.
    reflexivity.
Qed.

Lemma dynamic_precision_truncation_witness :
  getArgSize_char (platform := LP64) STRING_WITH_DYNAMIC_PRECISION
    (snd (getArgSize DYNAMIC_PRECISION (mkScratch 0 0)
            (mkInteger 2 : c_int))) "hello world"
  = (2 + 4, mkScratch 2 2).
Proof.
  apply (dynamic_precision_truncation (platform := LP64) 4 2
           (mkScratch 0 0) "hello world").
  vm_compute. reflexivity.
Defined.

(** X14: the type the classifier gives ["%.<digits>s"] and the size of a
    narrow string under that type: the content length is the smaller
    of the measured length and the value of the digits, the size that
    plus [sizeof(uint32_t)]. *)
Theorem static_precision_size {platform : Platform}
    (ds : list ascii) (st : scratch) (str : string) :
  Forall (fun c => isDigit c = true) ds ->
  digitsValue ds <= INT_MAX ->
  0 <= previousPrecision st ->
  strlen str + sizeof_uint32_t < 2 ^ size_t_bits ->
  let fmt := string_of_list_ascii ("%"%char :: "."%char :: ds ++ ["s"%char]) in
  let count := Z.min (strlen str) (digitsValue ds) in
  getParamInfo (c_str fmt) (strlen fmt)
  = inr [ParamType_of_int (digitsValue ds)]
  /\ getArgSize_char (ParamType_of_int (digitsValue ds)) st str
     = (count + sizeof_uint32_t, mkScratch (previousPrecision st) count).
Proof.
  intros Hds Hmax Hp Hfit fmt count.
  pose proof (digitsValue_nonneg ds Hds) as Hv.
  split.
  - subst fmt. rewrite getParamInfo_c_str.
    rewrite list_ascii_of_string_of_list_ascii.
    pose proof (classify_specification [] Absent (Digits ds) [] "s" [])
      as Hspec.
    unfold specifierText in Hspec.
    cbn [widthText precisionText List.app] in Hspec.
    rewrite app_nil_r in Hspec. rewrite Hspec.
    + reflexivity.
    + repeat split; auto; try constructor. discriminate.
  - destruct (getArgSize_narrow_string (ParamType_of_int (digitsValue ds))
                st str) as [Hsize _]; auto.
    + unfold NON_STRING, ParamType_of_int. lia.
    + rewrite Hsize. unfold truncatedCount, applicablePrecision.
      unfold STRING, ParamType_of_int.
      replace (0 <=? digitsValue ds) with true
        by (symmetry; apply Z.leb_le; lia).
      reflexivity.
Qed.

Lemma static_precision_size_witness :
  getParamInfo (c_str "%.10s") (strlen "%.10s") = inr [ParamType_of_int 10]
  /\ getArgSize_char (platform := LP64) (ParamType_of_int 10)
       (mkScratch 0 0) "hello world, hello"
     = (10 + 4, mkScratch 0 10).
Proof.
  apply (static_precision_size (platform := LP64)
           (list_ascii_of_string "10") (mkScratch 0 0)
           "hello world, hello").
  - repeat constructor.
  - vm_compute. discriminate.
  - simpl. lia.
  - vm_compute. reflexivity.
Defined.

(* ================================================================== *)
(** ** The scan only moves forward *)

Lemma preserves_ret {A} I (a : A) : preserves I (ret a).
Proof. intros s Hs. exact Hs. Qed.

Lemma preserves_raise {A} I f : preserves I (@raise A f).
Proof. intros s Hs. exact Hs. Qed.

Lemma preserves_bind {A B} I (m : M A) (k : A -> M B) :
  preserves I m -> (forall a, preserves I (k a)) -> preserves I (bind m k).
Proof.
  intros Hm Hk s Hs. specialize (Hm s Hs). unfold holds, bind in *.
  destruct (m s) as [a s'|f s']; [exact (Hk a s' Hm)|exact Hm].
Qed.

Section Stable.

Variable I : scan -> Prop.
Hypothesis I_stable : stable I.
Variable fmt : list ascii.

Lemma preserves_fetch : preserves I (fetch fmt).
Proof.
  intros s Hs. destruct I_stable as [Hlog _]. unfold holds, fetch.
  destruct (pos s <? 0); [now apply Hlog|].
  destruct (nth_error fmt (Z.to_nat (pos s))); now apply Hlog.
Qed.

Lemma preserves_advance : preserves I advance.
Proof. intros s Hs. destruct I_stable as [_ [Hadv _]]. now apply Hadv. Qed.

Lemma preserves_push_back p : preserves I (push_back p).
Proof. intros s Hs. destruct I_stable as [_ [_ Hpush]]. now apply Hpush. Qed.

Lemma preserves_int_result v : preserves I (int_result v).
Proof.
  unfold int_result. destruct (v <=? INT_MAX);
    [apply preserves_ret|apply preserves_raise].
Qed.

Lemma preserves_consume p fuel : preserves I (consume fmt p fuel).
Proof.
  induction fuel as [|fuel IH]; [apply preserves_raise|].
  cbn [consume]. apply preserves_bind; [apply preserves_fetch|].
  intros c. destruct (p c); [|apply preserves_ret].
  apply preserves_bind; [apply preserves_advance|]. intros _. exact IH.
Qed.

Lemma preserves_consumePrecision fuel :
  forall precision, preserves I (consumePrecision fmt fuel precision).
Proof.
  induction fuel as [|fuel IH]; intros precision; [apply preserves_raise|].
  cbn [consumePrecision]. apply preserves_bind; [apply preserves_fetch|].
  intros c. destruct (isDigit c); [|apply preserves_ret].
  apply preserves_bind; [apply preserves_fetch|]. intros d.
  apply preserves_bind; [apply preserves_int_result|]. intros t.
  apply preserves_bind; [apply preserves_int_result|]. intros precision'.
  apply preserves_bind; [apply preserves_advance|]. intros _. apply IH.
Qed.

Lemma preserves_specifier fuel : preserves I (specifier fmt fuel).
Proof.
  unfold specifier, consumeWidth, consumePrecisionField, consumeTerminal.
  repeat first
    [ apply preserves_consume
    | apply preserves_consumePrecision
    | apply preserves_fetch
    | apply preserves_advance
    | apply preserves_push_back
    | apply preserves_ret
    | apply preserves_bind; [|intros ?]
    | match goal with
      | |- preserves _ (if ?b then _ else _) => destruct b
      end ].
Qed.

Lemma preserves_iteration fuel : preserves I (iteration fmt fuel).
Proof.
  unfold iteration.
  apply preserves_bind; [apply preserves_fetch|]. intros c.
  destruct (negb (c =? "%")%char); [apply preserves_advance|].
  apply preserves_bind; [apply preserves_advance|]. intros _.
  apply preserves_bind; [apply preserves_fetch|]. intros c'.
  destruct (c' =? "%")%char;
    [apply preserves_advance|apply preserves_specifier].
Qed.

Lemma preserves_scanLoop N fuel loops :
  preserves I (scanLoop fmt N fuel loops).
Proof.
  induction loops as [|loops IH]; [apply preserves_raise|].
  cbn [scanLoop]. apply preserves_bind; [intros s Hs; exact Hs|].
  intros p. destruct (p <? N - 1); [|apply preserves_ret].
  apply preserves_bind; [apply preserves_iteration|]. intros _. exact IH.
Qed.

End Stable.

Lemma nondecreasing_snoc l x :
  nondecreasing l -> Forall (fun i => i <= x) l -> nondecreasing (l ++ [x]).
Proof.
  induction l as [|a l IH]; simpl; [auto|].
  intros [Ha Hl] Hx. pose proof (Forall_inv Hx) as Hax.
  pose proof (Forall_inv_tail Hx) as Hlx. cbv beta in Hax.
  split; [|auto]. apply Forall_app. split; [exact Ha|]. auto.
Qed.

Lemma nondecreasing_nth l :
  nondecreasing l ->
  forall i j a b, (i <= j)%nat ->
    nth_error l i = Some a -> nth_error l j = Some b -> a <= b.
Proof.
  induction l as [|x l IH]; intros Hl i j a b Hij Hi Hj.
  - destruct i; discriminate.
  - destruct Hl as [Hx Hl]. destruct i as [|i], j as [|j]; simpl in *.
    + assert (a = b) by congruence. lia.
    + injection Hi as <-. rewrite Forall_forall in Hx.
      apply Hx. eapply nth_error_In. exact Hj.
    + lia.
    + apply (IH Hl i j); auto. lia.
Qed.

Lemma forward_stable : stable forward.
Proof.
  unfold stable, forward. repeat split; cbn [pos Params reads];
    try (destruct H as [Hn Hf]).
  - now apply nondecreasing_snoc.
  - apply Forall_app. split; [exact Hf|]. constructor; [lia|constructor].
  - exact Hn.
  - eapply Forall_impl; [|exact Hf]. cbv beta. intros; lia.
  - exact Hn.
  - exact Hf.
Qed.

(** X15: the scan is one pass from left to right: whatever the array
    and [N], and whatever the outcome, the subscripts the classifier
    evaluates never decrease. *)
Theorem getParamInfo_reads_forward fmt N :
  forall i j a b, (i <= j)%nat ->
    nth_error (readsOf fmt N) i = Some a ->
    nth_error (readsOf fmt N) j = Some b ->
    a <= b.
Proof.
  apply nondecreasing_nth.
  pose proof (preserves_scanLoop forward forward_stable fmt N
                (S (List.length fmt)) (S (Z.to_nat N)) scan0) as Hrun.
  unfold readsOf, run_getParamInfo, holds in *.
  destruct (scanLoop fmt N (S (List.length fmt)) (S (Z.to_nat N)) scan0);
    apply Hrun; split; constructor.
Qed.

Lemma getParamInfo_reads_forward_witness :
  nth_error (readsOf (c_str "%5") (strlen "%5")) 1 = Some 1
  /\ nth_error (readsOf (c_str "%5") (strlen "%5")) 6 = Some 2
  /\ 1 <= 2.
Proof.
  split; [reflexivity|split; [reflexivity|]].
  apply (getParamInfo_reads_forward (c_str "%5") (strlen "%5") 1%nat 6%nat);
    [lia|reflexivity|reflexivity].
Defined.

(* ================================================================== *)
(** ** Specifications that end in ['%'] or with the string *)





(* ================================================================== *)
(** ** When the terminator is not read *)

Lemma c_str_last t c :
  nth_error (c_str (t ++ String c ""))
            (Z.to_nat (strlen (t ++ String c "") - 1))
  = Some c.
Proof.
  unfold c_str, strlen.
  induction t as [|x t IH].
  - reflexivity.
  - cbn [String.append list_ascii_of_string String.length List.app].
    replace (Z.to_nat (Z.of_nat (S (String.length (t ++ String c ""))) - 1))
      with (S (Z.to_nat (Z.of_nat (String.length (t ++ String c "")) - 1))).
    + exact IH.
    + assert (1 <= String.length (t ++ String c ""))%nat.
      { clear. induction t; simpl; lia. }
      lia.
Qed.

(** X18: when the last character of the string is none of those the
    scan steps over inside a specifier (no flag, digit, ['*'], ['.'] or
    length modifier), the classifier never reads the terminator: every
    subscript is in [0..N-1]. *)
Theorem getParamInfo_reads_inside (t : string) (c : ascii) :
  consumable c = false ->
  Forall (fun i => 0 <= i <= strlen (t ++ String c "") - 1)
    (readsOf (c_str (t ++ String c "")) (strlen (t ++ String c ""))).
Proof.
  intros Hc.
  assert (Hlen : 1 <= strlen (t ++ String c "")).
  { unfold strlen. clear. induction t; simpl String.length; lia. }
  apply (run_outcome _ _ (strlen (t ++ String c "") - 1)).
  apply (run_getParamInfo_logged _ _ _ c);
    [apply c_str_last|exact Hc|lia..].
Qed.

Lemma getParamInfo_reads_inside_witness :
  Forall (fun i => 0 <= i <= strlen "%-5.2f" - 1)
    (readsOf (c_str "%-5.2f") (strlen "%-5.2f")).
Proof.
  apply (getParamInfo_reads_inside "%-5.2" "f"). reflexivity.
Defined.
